(** * modern-coapp: the CoAP PDU codec of [include/modern-coapp.hpp]

    A shallow embedding of [coapp::pdu] : the parser [pdu::from], the
    serialiser [pdu::to_bytes] and the mutators, followed by the properties
    of the wire format that the specification states about them.

    Conventions of the embedding.
    - [uint8_t], [uint16_t] and [uint32_t] values are integers of [Z]; the
      wrap-around of every assignment to a narrower type is written out
      ([u8], [u16], [u32]).
    - [std::vector<uint8_t>] is [list Z]; an iterator into it is the index
      ([nat]) of the element it points to, [bytes.end()] is [length bytes].
    - Dereferencing an iterator that is not inside the vector is undefined
      behaviour in C++; the embedding makes it the outcome [Undefined].
    - [throw invalid_pdu()] is the outcome [Throw]; the class carries no
      data, the embedding records which [throw] statement was executed.
    - [assert] is the outcome [Abort] unless the translation unit is
      compiled with [NDEBUG], which the flag [ndebug] stands for.
    - The two pre-incremented reads of the 16-bit extension (high byte
      shifted left by 8, or-ed with the low byte) are evaluated left to
      right, the big-endian order the wire format asks for.
    - Iterator arithmetic is index arithmetic, also behind [bytes.end()],
      where the code only compares the iterator and does not read it.
    - Sizes are natural numbers: the [int] in which [to_bytes] adds up
      [required_size] is taken not to overflow, so the embedding speaks of
      messages shorter than [2^31] bytes. *)

From stdpp Require Import base list numbers sorting.
From Stdlib Require Import ZArith Lia.

Local Open Scope Z_scope.

(** * Part I: the embedding *)

(** ** Machine integers *)

Definition u8 (z : Z) : Z := z mod 256.
Definition u16 (z : Z) : Z := z mod 65536.
Definition u32 (z : Z) : Z := z mod 4294967296.

Definition is_u8 (z : Z) : Prop := 0 <= z < 256.
Definition is_u16 (z : Z) : Prop := 0 <= z < 65536.
Definition is_u32 (z : Z) : Prop := 0 <= z < 4294967296.

(** ** Outcomes of a call *)

(** The [throw invalid_pdu()] statements of the header, by what they test. *)
Inductive invalid_pdu : Set :=
| BufferTooShort        (* from: bytes.size() < 4 *)
| UnsupportedVersion    (* from: result._version != 1 *)
| TokenLengthTooLarge   (* from: token_length > 8 *)
| TruncatedToken        (* from: it > bytes.end() after the token *)
| ReservedLengthField   (* parse_value: val == 15 *)
| TruncatedOption       (* from: option_end > bytes.end() *)
| InvalidType           (* set_type: type > 3 *)
| TokenTooLong.         (* set_token: token.size() > 8 *)

Inductive outcome (A : Type) : Type :=
| Ok (a : A)
| Throw (e : invalid_pdu)
| Abort
| Undefined
| OutOfFuel.

Arguments Ok {A} a.
Arguments Throw {A} e.
Arguments Abort {A}.
Arguments Undefined {A}.
Arguments OutOfFuel {A}.

Definition bind {A B : Type} (m : outcome A) (k : A -> outcome B) : outcome B :=
  match m with
  | Ok a => k a
  | Throw e => Throw e
  | Abort => Abort
  | Undefined => Undefined
  | OutOfFuel => OutOfFuel
  end.

#[global] Instance outcome_bind : MBind outcome := fun A B k m => bind m k.
#[global] Instance outcome_ret : MRet outcome := fun A a => Ok a.

(** ** The data model: [struct option] and the fields of [class pdu] *)

Record coapp_option : Type := mk_option {
  number : Z;            (* uint32_t number { 0 } *)
  value : list Z         (* std::vector<uint8_t> value *)
}.

Record pdu : Type := mk_pdu {
  _version : Z;                    (* uint8_t _version { 1 } *)
  _type : Z;                       (* uint8_t _type { 0 } *)
  _code : Z;                       (* uint8_t _code { 0 } *)
  _message_id : Z;                 (* uint16_t _message_id { 0 } *)
  _token : list Z;                 (* std::vector<uint8_t> _token *)
  _options : list coapp_option;    (* std::vector<option> _options *)
  _payload : list Z                (* std::vector<uint8_t> _payload *)
}.

(** [pdu() = default] *)
Definition default_pdu : pdu :=
  {| _version := 1; _type := 0; _code := 0; _message_id := 0;
     _token := []; _options := []; _payload := [] |}.

(** ** Reading a byte vector *)

(** [*it] : defined only for an iterator inside the vector. *)
Definition deref (bytes : list Z) (it : nat) : outcome Z :=
  match bytes !! it with
  | Some b => Ok b
  | None => Undefined
  end.

(** The range constructor [{ first, last }] of [std::vector]. *)
Definition range (bytes : list Z) (first last : nat) : list Z :=
  take (last - first) (drop first bytes).

(** ** [pdu::from] *)

(** The lambda [parse_value]: resolves a nibble in place, advancing [it]
    over the extension bytes it reads. *)
Definition parse_value (bytes : list Z) (val : Z) (it : nat) : outcome (Z * nat) :=
  if val =? 13 then
    b ← deref bytes (S it);
    Ok (13 + b, S it)
  else if val =? 14 then
    hi ← deref bytes (S it);
    lo ← deref bytes (S (S it));
    Ok (269 + Z.lor (Z.shiftl hi 8) lo, S (S it))
  else if val =? 15 then
    Throw ReservedLengthField
  else
    Ok (val, it).

(** The [while] loop over the option entries.  Every iteration moves [it]
    forward, so [length bytes] iterations are enough; [fuel] counts them. *)
Fixpoint parse_options (fuel : nat) (bytes : list Z) (it : nat)
    (option_number : Z) (options : list coapp_option)
    : outcome (list coapp_option * nat) :=
  match bytes !! it with
  | None => Ok (options, it)                       (* it >= bytes.end() *)
  | Some d =>
    if d =? 255 then Ok (options, it)              (* *it == 0xff *)
    else
      match fuel with
      | O => OutOfFuel
      | S fuel' =>
        let option_delta := Z.shiftr d 4 in
        let option_length := Z.land d 15 in
        '(option_delta, it) ← parse_value bytes option_delta it;
        '(option_length, it) ← parse_value bytes option_length it;
        let it := S it in
        let option_end := (it + Z.to_nat option_length)%nat in
        if bool_decide (length bytes < option_end)%nat then
          Throw TruncatedOption
        else
          let option_number := u32 (option_number + option_delta) in
          parse_options fuel' bytes option_end option_number
            (options ++ [mk_option option_number (range bytes it option_end)])
      end
  end.

(** The fixed header, lines 34-51 of the function. *)
Record header_fields : Type := mk_header {
  h_version : Z;
  h_type : Z;
  h_token_length : Z;
  h_code : Z;
  h_message_id : Z
}.

Definition parse_header (bytes : list Z) : outcome header_fields :=
  if bool_decide (length bytes < 4)%nat then Throw BufferTooShort
  else
    header ← deref bytes 0;
    let version := Z.shiftr header 6 in
    if bool_decide (version ≠ 1) then Throw UnsupportedVersion
    else
      let type := Z.shiftr (Z.land header 48) 4 in
      let token_length := Z.land header 15 in
      if bool_decide (token_length > 8) then Throw TokenLengthTooLarge
      else
        code ← deref bytes 1;
        b2 ← deref bytes 2;
        b3 ← deref bytes 3;
        Ok (mk_header version type token_length code
              (u16 (Z.lor (Z.shiftl b2 8) b3))).

Definition from (bytes : list Z) : outcome pdu :=
  h ← parse_header bytes;
  (* Parse token *)
  let token_offset := 4%nat in
  let it := (token_offset + Z.to_nat (h_token_length h))%nat in
  if bool_decide (length bytes < it)%nat then Throw TruncatedToken
  else
    let result :=
      {| _version := h_version h; _type := h_type h; _code := h_code h;
         _message_id := h_message_id h;
         _token := range bytes token_offset it;
         _options := []; _payload := [] |} in
    if bool_decide (length bytes ≤ it)%nat then
      Ok result                                    (* No options or payload *)
    else
      '(options, it) ← parse_options (length bytes) bytes it 0 [];
      let result :=
        {| _version := _version result; _type := _type result;
           _code := _code result; _message_id := _message_id result;
           _token := _token result;
           _options := options; _payload := [] |} in
      if bool_decide (length bytes ≤ it)%nat then
        Ok result                                  (* No payload *)
      else
        (* Skip the payload separator *)
        let it := S it in
        Ok {| _version := _version result; _type := _type result;
              _code := _code result; _message_id := _message_id result;
              _token := _token result; _options := _options result;
              _payload := range bytes it (length bytes) |}.

(** ** Writing a byte vector *)

(** [*it = v] on a [std::vector<uint8_t>]: the value is narrowed to
    [uint8_t]; the iterator has to be inside the vector. *)
Definition store (bytes : list Z) (it : nat) (v : Z) : outcome (list Z) :=
  if bool_decide (it < length bytes)%nat then Ok (<[it := u8 v]> bytes)
  else Undefined.

(** [std::copy(src.begin(), src.end(), dest)] into [bytes]. *)
Fixpoint copy (src : list Z) (bytes : list Z) (dest : nat) : outcome (list Z) :=
  match src with
  | [] => Ok bytes
  | x :: src' =>
    bytes ← store bytes dest x;
    copy src' bytes (S dest)
  end.

(** ** [pdu::to_bytes] *)

(** The lambdas of the two loops. *)
Definition get_size (val : Z) : nat :=
  if val <? 13 then 0%nat else if val <? 269 then 1%nat else 2%nat.

Definition get_nibble (val : Z) : Z :=
  if val <? 13 then u8 val else if val <? 269 then 13 else 14.

Definition encode_val (ndebug : bool) (nibble val : Z) (bytes : list Z) (it : nat)
    : outcome (list Z * nat) :=
  if nibble <? 13 then Ok (bytes, it)
  else if nibble =? 13 then
    bytes ← store bytes (S it) (val - 13);
    Ok (bytes, S it)
  else if nibble =? 14 then
    let encoded_val := u32 (val - 269) in
    if negb ndebug && (65535 <? encoded_val) then Abort    (* assert *)
    else
      bytes ← store bytes (S it) (Z.shiftr encoded_val 8);
      bytes ← store bytes (S (S it)) encoded_val;
      Ok (bytes, S (S it))
  else Ok (bytes, it).

(** [value.size()] passed where a [const uint32_t&] is expected. *)
Definition size32 (v : list Z) : Z := u32 (Z.of_nat (length v)).

(** First loop: the size of the buffer. *)
Fixpoint required_size_options (options : list coapp_option) (prev_delta : Z)
    (required_size : nat) : nat :=
  match options with
  | [] => required_size
  | option :: options' =>
    let required_size := (required_size + 1)%nat in
    let option_delta := u32 (number option - prev_delta) in
    let prev_delta := number option in
    let required_size := (required_size + get_size option_delta)%nat in
    let required_size := (required_size + get_size (size32 (value option)))%nat in
    let required_size := (required_size + length (value option))%nat in
    required_size_options options' prev_delta required_size
  end.

(** Second loop: the option entries written at [it]. *)
Fixpoint encode_options (ndebug : bool) (options : list coapp_option)
    (prev_delta : Z) (bytes : list Z) (it : nat) : outcome (list Z * nat) :=
  match options with
  | [] => Ok (bytes, it)
  | option :: options' =>
    let option_delta := u32 (number option - prev_delta) in
    let prev_delta := number option in
    let delta_nibble := get_nibble option_delta in
    let length_nibble := get_nibble (size32 (value option)) in
    bytes ← store bytes it (Z.lor (Z.shiftl delta_nibble 4) length_nibble);
    '(bytes, it) ← encode_val ndebug delta_nibble option_delta bytes it;
    '(bytes, it) ← encode_val ndebug length_nibble (size32 (value option)) bytes it;
    bytes ← copy (value option) bytes (S it);
    let it := (S it + length (value option))%nat in
    encode_options ndebug options' prev_delta bytes it
  end.

Definition to_bytes (ndebug : bool) (self : pdu) : outcome (list Z) :=
  let required_size := 4%nat in                       (* header length *)
  let required_size := (required_size + length (_token self))%nat in
  let required_size :=
    match length (_payload self) with
    | O => required_size
    | pl_size => (required_size + (1 + pl_size))%nat  (* separator *)
    end in
  let required_size := required_size_options (_options self) 0 required_size in
  let bytes := replicate required_size 0 in
  (* Header *)
  bytes ← store bytes 0
            (Z.lor (Z.lor (Z.shiftl (_version self) 6) (Z.shiftl (_type self) 4))
                   (Z.of_nat (length (_token self))));
  bytes ← store bytes 1 (_code self);
  bytes ← store bytes 2 (Z.shiftr (_message_id self) 8);
  bytes ← store bytes 3 (_message_id self);
  (* Token *)
  let it := 4%nat in
  bytes ← copy (_token self) bytes it;
  let it := (it + length (_token self))%nat in
  (* Options *)
  '(bytes, it) ← encode_options ndebug (_options self) 0 bytes it;
  (* Payload *)
  match length (_payload self) with
  | O => Ok bytes
  | _ =>
    bytes ← store bytes it 255;
    copy (_payload self) bytes (S it)
  end.

(** ** The mutators *)

(** A mutator returns the outcome of the call together with the object it
    leaves behind: a [throw] seen by the caller leaves the object as the
    statements executed before it made it. *)
Definition set_type (type : Z) (self : pdu) : outcome unit * pdu :=
  if bool_decide (type > 3) then (Throw InvalidType, self)
  else
    (Ok tt,
     {| _version := _version self; _type := type; _code := _code self;
        _message_id := _message_id self; _token := _token self;
        _options := _options self; _payload := _payload self |}).

Definition set_token (token : list Z) (self : pdu) : outcome unit * pdu :=
  if bool_decide (8 < length token)%nat then (Throw TokenTooLong, self)
  else
    (Ok tt,
     {| _version := _version self; _type := _type self; _code := _code self;
        _message_id := _message_id self; _token := token;
        _options := _options self; _payload := _payload self |}).

Definition add_option (opt : coapp_option) (self : pdu) : outcome unit * pdu :=
  (Ok tt,
   {| _version := _version self; _type := _type self; _code := _code self;
      _message_id := _message_id self; _token := _token self;
      _options := _options self ++ [opt]; _payload := _payload self |}).

Definition set_payload (payload : list Z) (self : pdu) : outcome unit * pdu :=
  (Ok tt,
   {| _version := _version self; _type := _type self; _code := _code self;
      _message_id := _message_id self; _token := _token self;
      _options := _options self; _payload := payload |}).

(** [set_code] and [set_message_id] are the two setters the later revision
    of the header adds next to the four above; they assign without a test. *)
Definition set_code (code : Z) (self : pdu) : outcome unit * pdu :=
  (Ok tt,
   {| _version := _version self; _type := _type self; _code := code;
      _message_id := _message_id self; _token := _token self;
      _options := _options self; _payload := _payload self |}).

Definition set_message_id (mid : Z) (self : pdu) : outcome unit * pdu :=
  (Ok tt,
   {| _version := _version self; _type := _type self; _code := _code self;
      _message_id := mid; _token := _token self;
      _options := _options self; _payload := _payload self |}).

(** ** The wire format as one concatenation *)

(** The extension bytes [encode_val] writes for [val]. *)
Definition ext_bytes (val : Z) : list Z :=
  if val <? 13 then []
  else if val <? 269 then [u8 (val - 13)]
  else [u8 (Z.shiftr (u32 (val - 269)) 8); u8 (u32 (val - 269))].

Definition entry_bytes (prev_delta : Z) (o : coapp_option) : list Z :=
  let option_delta := u32 (number o - prev_delta) in
  u8 (Z.lor (Z.shiftl (get_nibble option_delta) 4) (get_nibble (size32 (value o))))
  :: ext_bytes option_delta ++ ext_bytes (size32 (value o)) ++ (u8 <$> value o).

Fixpoint options_bytes (prev_delta : Z) (options : list coapp_option) : list Z :=
  match options with
  | [] => []
  | o :: options' => entry_bytes prev_delta o ++ options_bytes (number o) options'
  end.

Definition header_bytes (self : pdu) : list Z :=
  [ u8 (Z.lor (Z.lor (Z.shiftl (_version self) 6) (Z.shiftl (_type self) 4))
              (Z.of_nat (length (_token self))));
    u8 (_code self);
    u8 (Z.shiftr (_message_id self) 8);
    u8 (_message_id self) ].

(** Header, token and options: everything before the separator. *)
Definition frame (self : pdu) : list Z :=
  header_bytes self ++ (u8 <$> _token self) ++ options_bytes 0 (_options self).

Definition payload_bytes (payload : list Z) : list Z :=
  match payload with
  | [] => []
  | _ => 255 :: (u8 <$> payload)
  end.

Definition wire (self : pdu) : list Z :=
  frame self ++ payload_bytes (_payload self).

(** The value the [assert] of [encode_val] rejects. *)
Definition too_large (val : Z) : bool := 65804 <? val.

Fixpoint options_fit (prev_delta : Z) (options : list coapp_option) : bool :=
  match options with
  | [] => true
  | o :: options' =>
    negb (too_large (u32 (number o - prev_delta)))
    && negb (too_large (size32 (value o)))
    && options_fit (number o) options'
  end.

(** ** Well-formed messages *)

(** The ranges the C++ types of the fields impose, and the two that the
    mutators and [from] keep: [_type] on two bits, at most 8 token bytes. *)
Definition wf_bytes (l : list Z) : Prop := Forall is_u8 l.

Record wf_option (o : coapp_option) : Prop := {
  wf_number : is_u32 (number o);
  wf_value : wf_bytes (value o)
}.

Record wf_pdu (self : pdu) : Prop := {
  wf_version : _version self = 1;
  wf_type : 0 <= _type self <= 3;
  wf_code : is_u8 (_code self);
  wf_message_id : is_u16 (_message_id self);
  wf_token : wf_bytes (_token self);
  wf_token_length : (length (_token self) ≤ 8)%nat;
  wf_options : Forall wf_option (_options self);
  wf_payload : wf_bytes (_payload self)
}.

(** Every delta (taken from the option before, from 0 for the first) and
    every value length is one the extension scheme can write. *)
Fixpoint representable (prev_delta : Z) (options : list coapp_option) : Prop :=
  match options with
  | [] => True
  | o :: options' =>
    u32 (number o - prev_delta) <= 65804
    ∧ Z.of_nat (length (value o)) <= 65804
    ∧ representable (number o) options'
  end.

(** What may follow the last option entry: nothing, or the separator and
    the payload. *)
Definition sentinel_or_end (post : list Z) : Prop :=
  post = [] ∨ ∃ payload, post = 255 :: payload.

(** The message with another payload. *)
Definition with_payload (self : pdu) (payload : list Z) : pdu :=
  {| _version := _version self; _type := _type self; _code := _code self;
     _message_id := _message_id self; _token := _token self;
     _options := _options self; _payload := payload |}.

(** ** Messages built with the mutators *)

Inductive mutator : Type :=
| SetType (type : Z)
| SetCode (code : Z)
| SetMessageId (mid : Z)
| SetToken (token : list Z)
| AddOption (opt : coapp_option)
| SetPayload (payload : list Z).

Definition call (m : mutator) (self : pdu) : outcome unit * pdu :=
  match m with
  | SetType type => set_type type self
  | SetCode code => set_code code self
  | SetMessageId mid => set_message_id mid self
  | SetToken token => set_token token self
  | AddOption opt => add_option opt self
  | SetPayload payload => set_payload payload self
  end.

(** The object after a sequence of calls (a call that throws is caught by
    the caller, who goes on with the object as the call left it). *)
Fixpoint build (calls : list mutator) (self : pdu) : pdu :=
  match calls with
  | [] => self
  | m :: calls' => build calls' (snd (call m self))
  end.

(** The options a sequence of calls adds, in the order of the calls. *)
Definition added_options (calls : list mutator) : list coapp_option :=
  omap (λ m, match m with AddOption opt => Some opt | _ => None end) calls.

(** An argument in the range of its parameter type, and accepted. *)
Definition valid_input (m : mutator) : Prop :=
  match m with
  | SetType type => 0 <= type <= 3
  | SetCode code => is_u8 code
  | SetMessageId mid => is_u16 mid
  | SetToken token => wf_bytes token ∧ (length token ≤ 8)%nat
  | AddOption opt => wf_option opt
  | SetPayload payload => wf_bytes payload
  end.

(** ** Notions the properties are stated with *)

(** *** The fixed header *)

(** The three [throw] statements of the header part of [from]. *)
Definition malformed_header (e : invalid_pdu) : Prop :=
  e = BufferTooShort ∨ e = UnsupportedVersion ∨ e = TokenLengthTooLarge.

(** What they test, on the buffer. *)
Definition header_rejected (bytes : list Z) : Prop :=
  (length bytes < 4)%nat
  ∨ ∃ b0, bytes !! 0%nat = Some b0 ∧ (Z.shiftr b0 6 ≠ 1 ∨ Z.land b0 15 > 8).

(** *** Messages and buffers of the tests *)

(** A message with one option whose delta and whose value length are [v]. *)
Definition boundary_pdu (v : Z) : pdu :=
  build [AddOption (mk_option v (replicate (Z.to_nat v) 0))] default_pdu.

(** The message of the test with three options, without its payload. *)
Definition three_options : pdu :=
  {| _version := 1; _type := 2; _code := 2; _message_id := 256; _token := [];
     _options := [mk_option 1 [255]; mk_option 2 [255]; mk_option 5 [255; 255; 255]];
     _payload := [] |}.

(** The options of the repository's test whose extensions and values are
    all 0xFF. *)
Definition all_ff : pdu :=
  {| _version := 1; _type := 2; _code := 2; _message_id := 256; _token := [];
     _options := [mk_option 268 [255; 255; 255]; mk_option 66072 [255; 255; 255]];
     _payload := [] |}.

(** *** The proviso of the round-trip law *)

(** No option entry of the buffer carries a redundant extension: every
    nibble of every entry is the one [get_nibble] picks for the value the
    nibble and its extension bytes resolve to. *)
Fixpoint entries_minimal (fuel : nat) (bytes : list Z) (it : nat) : bool :=
  match bytes !! it with
  | None => true
  | Some d =>
    if d =? 255 then true
    else
      match fuel with
      | O => true
      | S fuel' =>
        match parse_value bytes (Z.shiftr d 4) it with
        | Ok (option_delta, it) =>
          match parse_value bytes (Z.land d 15) it with
          | Ok (option_length, it) =>
            (get_nibble option_delta =? Z.shiftr d 4)
            && (get_nibble option_length =? Z.land d 15)
            && entries_minimal fuel' bytes (S it + Z.to_nat option_length)
          | _ => true
          end
        | _ => true
        end
      end
  end.

Definition no_redundant_extension (bytes : list Z) : bool :=
  match parse_header bytes with
  | Ok h => entries_minimal (length bytes) bytes (4 + Z.to_nat (h_token_length h))
  | _ => true
  end.

(** A minimal valid encoding: [from] accepts the buffer, and no buffer that
    decodes to the same message is shorter. *)
Definition minimal_valid_encoding (bytes : list Z) : Prop :=
  wf_bytes bytes
  ∧ (∃ self, from bytes = Ok self)
  ∧ ∀ bytes', wf_bytes bytes' → from bytes' = from bytes →
      (length bytes ≤ length bytes')%nat.

(** The buffer of the test with five options and a payload, and the
    message it decodes to. *)
Definition test_pdu2 : list Z :=
  [96; 2; 1; 0; 17; 255; 17; 255; 51; 255; 255; 255;
   211; 255; 255; 255; 255; 227; 255; 255; 255; 255; 255;
   255; 66; 66; 66; 66].

Definition test_pdu2_decoded : pdu :=
  {| _version := 1; _type := 2; _code := 2; _message_id := 256; _token := [];
     _options := [mk_option 1 [255]; mk_option 2 [255]; mk_option 5 [255; 255; 255];
                  mk_option 273 [255; 255; 255]; mk_option 66077 [255; 255; 255]];
     _payload := [66; 66; 66; 66] |}.

(** The calls that build that message, in ascending order of option
    number. *)
Definition ascending_calls : list mutator :=
  [ SetType 2; SetCode 2; SetMessageId 256;
    AddOption (mk_option 1 [255]);
    AddOption (mk_option 2 [255]);
    AddOption (mk_option 5 [255; 255; 255]);
    AddOption (mk_option 273 [255; 255; 255]);
    AddOption (mk_option 66077 [255; 255; 255]);
    SetPayload [66; 66; 66; 66] ].

(** *** Values the extension scheme cannot write *)

(** Every delta and every value length, as the 32-bit values [to_bytes]
    computes, is at most 65804. *)
Fixpoint within_range (prev_delta : Z) (options : list coapp_option) : Prop :=
  match options with
  | [] => True
  | o :: options' =>
    u32 (number o - prev_delta) <= 65804
    ∧ size32 (value o) <= 65804
    ∧ within_range (number o) options'
  end.

(** One option, number 65805. *)
Definition delta_too_large : pdu :=
  build [AddOption (mk_option 65805 [])] default_pdu.

(** The calls of the test "should be able to insert options in any order". *)
Definition any_order_calls : list mutator :=
  [ SetType 2; SetCode 2; SetMessageId 256;
    AddOption (mk_option 66077 [255; 255; 255]);
    AddOption (mk_option 5 [255; 255; 255]);
    AddOption (mk_option 1 [255]);
    AddOption (mk_option 2 [255]);
    AddOption (mk_option 273 [255; 255; 255]);
    SetPayload [66; 66; 66; 66] ].

(** *** The revision of the header with a [std::multimap] *)

(** The later revision of the header keeps the options in a
    [std::multimap]; its [add_option] is [emplace], which puts the option
    after the ones whose number is not greater.  The two lambdas of its
    [to_bytes] are the ones above, run over the multimap in key order. *)
Module Multimap.

Fixpoint emplace (opt : coapp_option) (options : list coapp_option)
    : list coapp_option :=
  match options with
  | [] => [opt]
  | o :: options' =>
    if number opt <? number o then opt :: o :: options'
    else o :: emplace opt options'
  end.

Definition add_option (opt : coapp_option) (self : pdu) : outcome unit * pdu :=
  (Ok tt,
   {| _version := _version self; _type := _type self; _code := _code self;
      _message_id := _message_id self; _token := _token self;
      _options := emplace opt (_options self); _payload := _payload self |}).

Definition call_multimap (m : mutator) (self : pdu) : outcome unit * pdu :=
  match m with
  | AddOption opt => add_option opt self
  | _ => call m self
  end.

Fixpoint build_multimap (calls : list mutator) (self : pdu) : pdu :=
  match calls with
  | [] => self
  | m :: calls' => build_multimap calls' (snd (call_multimap m self))
  end.

End Multimap.

(** Two options added with the higher number first.  Sorted, they are
    1 and 5, with the deltas 1 and 4. *)
Definition out_of_order_calls : list mutator :=
  [AddOption (mk_option 5 []); AddOption (mk_option 1 [])].

(** ** The accessors *)

Definition version (self : pdu) : Z := _version self.
Definition type (self : pdu) : Z := _type self.
Definition code (self : pdu) : Z := _code self.
Definition message_id (self : pdu) : Z := _message_id self.
Definition token (self : pdu) : list Z := _token self.
Definition options (self : pdu) : list coapp_option := _options self.
Definition payload_raw (self : pdu) : list Z := _payload self.

(** ** Notions the further properties are stated with *)

(** The number the loops hold in [option_number] and [prev_delta] after the
    options: the number of the last one, or the start value. *)
Fixpoint last_number (prev : Z) (options : list coapp_option) : Z :=
  match options with
  | [] => prev
  | o :: options' => last_number (number o) options'
  end.

(** An argument in the range of its C++ parameter type, accepted or not. *)
Definition typed_input (m : mutator) : Prop :=
  match m with
  | SetType type => is_u8 type
  | SetCode code => is_u8 code
  | SetMessageId mid => is_u16 mid
  | SetToken token => wf_bytes token
  | AddOption opt => wf_option opt
  | SetPayload payload => wf_bytes payload
  end.

(** The options in ascending order of number. *)
Definition ascending (options : list coapp_option) : Prop :=
  StronglySorted (λ a b, number a <= number b) options.

(** ** The response codes of the later revision of the header *)

(** The macros [RESPONSE_CODE] and [RESPONSE_CLASS], on [int]. *)
Definition RESPONSE_CODE (Code : Z) : Z :=
  Z.lor (Z.shiftl (Z.quot Code 100) 5) (Z.rem Code 100).

Definition RESPONSE_CLASS (Code : Z) : Z := Z.shiftr Code 5.

(** The arguments of [RESPONSE_CODE] in [enum Code], in the order of the
    enumerators. *)
Definition response_codes : list Z :=
  [201; 202; 203; 204; 205; 231; 400; 401; 402; 403; 404; 405; 406; 412; 413;
   415; 500; 501; 502; 503; 504; 505].

(** ** [from] and [to_bytes] of the revision with a [std::multimap] *)

Module Revision.

(** The loop of [from]: the same statements, with [emplace] into the
    multimap where the vector has [emplace_back]. *)
Fixpoint parse_options (fuel : nat) (bytes : list Z) (it : nat)
    (option_number : Z) (options : list coapp_option)
    : outcome (list coapp_option * nat) :=
  match bytes !! it with
  | None => Ok (options, it)
  | Some d =>
    if d =? 255 then Ok (options, it)
    else
      match fuel with
      | O => OutOfFuel
      | S fuel' =>
        let option_delta := Z.shiftr d 4 in
        let option_length := Z.land d 15 in
        '(option_delta, it) ← parse_value bytes option_delta it;
        '(option_length, it) ← parse_value bytes option_length it;
        let it := S it in
        let option_end := (it + Z.to_nat option_length)%nat in
        if bool_decide (length bytes < option_end)%nat then
          Throw TruncatedOption
        else
          let option_number := u32 (option_number + option_delta) in
          parse_options fuel' bytes option_end option_number
            (Multimap.emplace
               (mk_option option_number (range bytes it option_end)) options)
      end
  end.

Definition from (bytes : list Z) : outcome pdu :=
  h ← parse_header bytes;
  let token_offset := 4%nat in
  let it := (token_offset + Z.to_nat (h_token_length h))%nat in
  if bool_decide (length bytes < it)%nat then Throw TruncatedToken
  else
    let result :=
      {| _version := h_version h; _type := h_type h; _code := h_code h;
         _message_id := h_message_id h;
         _token := range bytes token_offset it;
         _options := []; _payload := [] |} in
    if bool_decide (length bytes ≤ it)%nat then
      Ok result
    else
      '(options, it) ← parse_options (length bytes) bytes it 0 [];
      let result :=
        {| _version := _version result; _type := _type result;
           _code := _code result; _message_id := _message_id result;
           _token := _token result;
           _options := options; _payload := [] |} in
      if bool_decide (length bytes ≤ it)%nat then
        Ok result
      else
        let it := S it in
        Ok {| _version := _version result; _type := _type result;
              _code := _code result; _message_id := _message_id result;
              _token := _token result; _options := _options result;
              _payload := range bytes it (length bytes) |}.

(** [encode_val] with [push_back] into [options_buf]. *)
Definition encode_val (ndebug : bool) (nibble val : Z) (options_buf : list Z)
    : outcome (list Z) :=
  if nibble <? 13 then Ok options_buf                 (* already in the nibble *)
  else if nibble =? 13 then Ok (options_buf ++ [u8 (val - 13)])
  else if nibble =? 14 then
    let encoded_val := u32 (val - 269) in
    if negb ndebug && (65535 <? encoded_val) then Abort    (* assert *)
    else
      let options_buf := options_buf ++ [u8 (Z.shiftr encoded_val 8)] in
      Ok (options_buf ++ [u8 encoded_val])
  else Ok options_buf.

(** The loop over the multimap, in key order. *)
Fixpoint encode_options (ndebug : bool) (options : list coapp_option)
    (prev_delta : Z) (options_buf : list Z) : outcome (list Z) :=
  match options with
  | [] => Ok options_buf
  | option :: options' =>
    let option_delta := u32 (number option - prev_delta) in
    let prev_delta := number option in
    let delta_nibble := get_nibble option_delta in
    let length_nibble := get_nibble (size32 (value option)) in
    let options_buf :=
      options_buf ++ [u8 (Z.lor (Z.shiftl delta_nibble 4) length_nibble)] in
    options_buf ← encode_val ndebug delta_nibble option_delta options_buf;
    options_buf ← encode_val ndebug length_nibble (size32 (value option)) options_buf;
    let options_buf := options_buf ++ (u8 <$> value option) in
    encode_options ndebug options' prev_delta options_buf
  end.

Definition to_bytes (ndebug : bool) (self : pdu) : outcome (list Z) :=
  let required_size := 4%nat in
  let required_size := (required_size + length (_token self))%nat in
  let required_size :=
    match length (_payload self) with
    | O => required_size
    | pl_size => (required_size + (1 + pl_size))%nat
    end in
  (* Encode Options *)
  options_buf ←
    match length (_options self) with
    | O => Ok []
    | _ => encode_options ndebug (_options self) 0 []
    end;
  let required_size := (required_size + length options_buf)%nat in
  let bytes := replicate required_size 0 in
  (* Header *)
  bytes ← store bytes 0
            (Z.lor (Z.lor (Z.shiftl (_version self) 6) (Z.shiftl (_type self) 4))
                   (Z.of_nat (length (_token self))));
  bytes ← store bytes 1 (_code self);
  bytes ← store bytes 2 (Z.shiftr (_message_id self) 8);
  bytes ← store bytes 3 (_message_id self);
  (* Token *)
  let it := 4%nat in
  bytes ← copy (_token self) bytes it;
  let it := (it + length (_token self))%nat in
  (* Options *)
  '(bytes, it) ←
    match length options_buf with
    | O => Ok (bytes, it)
    | s => bytes ← copy options_buf bytes it; Ok (bytes, (it + s)%nat)
    end;
  (* Payload *)
  match length (_payload self) with
  | O => Ok bytes
  | _ =>
    bytes ← store bytes it 255;
    copy (_payload self) bytes (S it)
  end.

End Revision.

(** The bytes [parse_value] reads behind the descriptor for a nibble. *)
Definition extension_size (nibble : Z) : nat :=
  if nibble =? 13 then 1%nat else if nibble =? 14 then 2%nat else 0%nat.

(** The value of [required_size] when the first loop of [to_bytes] is
    done: the size of the buffer [to_bytes] allocates.  In the source it is
    an [int]. *)
Definition required_size (self : pdu) : nat :=
  required_size_options (_options self) 0
    (match length (_payload self) with
     | O => 4 + length (_token self)
     | pl_size => 4 + length (_token self) + (1 + pl_size)
     end)%nat.

(** Two calls the mutators reject: a type above 3, a token of 9 bytes. *)
Definition rejected_calls : list mutator :=
  [SetType 7; SetToken [1; 2; 3; 4; 5; 6; 7; 8; 9]].

(** * Part II: the properties *)

(** ** Two tests of the repository, run on the embedding *)

Example from_empty : from [] = Throw BufferTooShort.
Proof. reflexivity. Qed.

Example from_header_only :
  from [104; 2; 1; 0; 1; 2; 3; 4; 5; 6; 7; 8]
  = Ok {| _version := 1; _type := 2; _code := 2; _message_id := 256;
          _token := [1; 2; 3; 4; 5; 6; 7; 8]; _options := []; _payload := [] |}.
Proof. reflexivity. Qed.

(** ** Facts on nibbles, bytes and 16-bit words *)

Section Bits.

(** A property of the integers below [n], decided by running through them. *)
Lemma range_check (P : Z → Prop) `{∀ z, Decision (P z)} (n : Z) :
  bool_decide (Forall P (seqZ 0 n)) = true → ∀ z, 0 <= z < n → P z.
Proof.
  intros Hb z Hz. apply bool_decide_eq_true_1 in Hb.
  rewrite Forall_seqZ in Hb. apply Hb. lia.
Qed.

Lemma u8_small z : is_u8 z → u8 z = z.
Proof. unfold is_u8, u8. intros. apply Z.mod_small. lia. Qed.

Lemma u16_small z : is_u16 z → u16 z = z.
Proof. unfold is_u16, u16. intros. apply Z.mod_small. lia. Qed.

Lemma u32_small z : is_u32 z → u32 z = z.
Proof. unfold is_u32, u32. intros. apply Z.mod_small. lia. Qed.

Lemma u8_range z : is_u8 (u8 z).
Proof. unfold is_u8, u8. apply Z.mod_pos_bound. lia. Qed.

Lemma u32_range z : is_u32 (u32 z).
Proof. unfold is_u32, u32. apply Z.mod_pos_bound. lia. Qed.

(** The descriptor byte splits into its two nibbles and back. *)
Lemma descriptor_split d :
  is_u8 d →
  Z.lor (Z.shiftl (Z.shiftr d 4) 4) (Z.land d 15) = d
  ∧ 0 <= Z.shiftr d 4 < 16 ∧ 0 <= Z.land d 15 < 16
  ∧ (d ≠ 255 → Z.shiftr d 4 ≠ 15 ∨ Z.land d 15 ≠ 15).
Proof.
  unfold is_u8. revert d. apply (range_check _ 256). vm_compute. reflexivity.
Qed.

Lemma descriptor_join a b :
  0 <= a < 16 → 0 <= b < 16 →
  let d := Z.lor (Z.shiftl a 4) b in
  is_u8 d ∧ Z.shiftr d 4 = a ∧ Z.land d 15 = b.
Proof.
  intros Ha Hb.
  assert (Hall : ∀ x, 0 <= x < 16 →
    Forall (λ y, is_u8 (Z.lor (Z.shiftl x 4) y)
                 ∧ Z.shiftr (Z.lor (Z.shiftl x 4) y) 4 = x
                 ∧ Z.land (Z.lor (Z.shiftl x 4) y) 15 = y) (seqZ 0 16)).
  { unfold is_u8. apply (range_check _ 16). vm_compute. reflexivity. }
  specialize (Hall a Ha). rewrite Forall_seqZ in Hall. apply Hall. lia.
Qed.

(** Two bytes joined big-endian. *)
Lemma lor_shiftl_8 hi lo :
  is_u8 lo → Z.lor (Z.shiftl hi 8) lo = hi * 256 + lo.
Proof.
  intros Hlo. rewrite <- Z.add_nocarry_lor.
  - rewrite Z.shiftl_mul_pow2 by lia. reflexivity.
  - apply Z.bits_inj'. intros n Hn. rewrite Z.land_spec, Z.bits_0.
    destruct (Z.lt_ge_cases n 8) as [Hlt | Hge].
    + rewrite Z.shiftl_spec_low by lia. reflexivity.
    + rewrite <- (Z.mod_small lo (2 ^ 8)) by (unfold is_u8 in Hlo; lia).
      rewrite Z.mod_pow2_bits_high by lia. apply andb_false_r.
Qed.

Lemma word_join hi lo :
  is_u8 hi → is_u8 lo →
  let e := Z.lor (Z.shiftl hi 8) lo in
  is_u16 e ∧ u8 (Z.shiftr e 8) = hi ∧ u8 e = lo.
Proof.
  intros Hhi Hlo e. subst e. rewrite lor_shiftl_8 by done.
  unfold is_u8, is_u16, u8 in *. rewrite Z.shiftr_div_pow2 by lia.
  change (2 ^ 8) with 256.
  assert ((hi * 256 + lo) / 256 = hi) as -> by (symmetry; apply Z.div_unique with lo; lia).
  split; [lia|]. split.
  - apply Z.mod_small. lia.
  - symmetry. apply Z.mod_unique with hi; lia.
Qed.

Lemma word_split e :
  is_u16 e →
  is_u8 (Z.shiftr e 8) ∧ Z.lor (Z.shiftl (Z.shiftr e 8) 8) (u8 e) = e.
Proof.
  intros He. unfold is_u16 in He.
  rewrite lor_shiftl_8 by apply u8_range.
  unfold is_u8, u8. rewrite Z.shiftr_div_pow2 by lia. change (2 ^ 8) with 256.
  pose proof (Z.div_mod e 256 ltac:(lia)).
  pose proof (Z.mod_pos_bound e 256 ltac:(lia)).
  split; [|lia].
  split; [apply Z.div_pos; lia | apply Z.div_lt_upper_bound; lia].
Qed.

End Bits.

(** ** [to_bytes] writes the concatenation *)

Section Encoder.

Lemma store_middle pre x post v :
  store (pre ++ x :: post) (length pre) v = Ok (pre ++ u8 v :: post).
Proof.
  unfold store. rewrite bool_decide_eq_true_2.
  - f_equal. induction pre as [|y pre IH]; simpl; [done|]. by rewrite IH.
  - rewrite length_app. simpl. lia.
Qed.

Lemma store_at pre post it v :
  length pre = it → (0 < length post)%nat →
  ∃ post', length post = S (length post')
           ∧ store (pre ++ post) it v = Ok ((pre ++ [u8 v]) ++ post').
Proof.
  intros <- Hlen. destruct post as [|x post]; [simpl in Hlen; lia|].
  exists post. split; [done|]. rewrite store_middle. by rewrite <- app_assoc.
Qed.

Lemma copy_at src : ∀ pre post dest,
  length pre = dest → (length src ≤ length post)%nat →
  ∃ post', length post = (length src + length post')%nat
           ∧ copy src (pre ++ post) dest = Ok ((pre ++ (u8 <$> src)) ++ post').
Proof.
  induction src as [|x src IH]; intros pre post dest Hpre Hlen; simpl.
  - exists post. by rewrite app_nil_r.
  - simpl in Hlen.
    destruct (store_at pre post dest x Hpre ltac:(lia)) as (post1 & Hl1 & ->).
    simpl.
    destruct (IH (pre ++ [u8 x]) post1 (S dest)) as (post2 & Hl2 & ->).
    + rewrite length_app. simpl. lia.
    + lia.
    + exists post2. split; [lia|]. do 2 f_equal.
      rewrite <- app_assoc. reflexivity.
Qed.

Lemma get_nibble_cases val :
  0 <= val →
  (val < 13 ∧ get_nibble val = val)
  ∨ (13 <= val < 269 ∧ get_nibble val = 13)
  ∨ (269 <= val ∧ get_nibble val = 14).
Proof.
  intros Hval. unfold get_nibble.
  destruct (Z.ltb_spec val 13).
  - left. split; [done|]. apply u8_small. unfold is_u8. lia.
  - destruct (Z.ltb_spec val 269); [right; left | right; right]; lia.
Qed.

Lemma get_nibble_range val : 0 <= val → 0 <= get_nibble val < 15.
Proof. intros H. destruct (get_nibble_cases val H) as [?|[?|?]]; lia. Qed.

Lemma get_size_ext_bytes val : get_size val = length (ext_bytes val).
Proof.
  unfold get_size, ext_bytes.
  destruct (val <? 13); [done|]. by destruct (val <? 269).
Qed.

(** [encode_val] appends the extension bytes, or stops at its [assert]. *)
Lemma encode_val_at ndebug val pre post it :
  is_u32 val → length pre = S it →
  (length (ext_bytes val) ≤ length post)%nat →
  if ndebug || negb (too_large val) then
    ∃ post', length post = (length (ext_bytes val) + length post')%nat
      ∧ encode_val ndebug (get_nibble val) val (pre ++ post) it
        = Ok ((pre ++ ext_bytes val) ++ post', (it + length (ext_bytes val))%nat)
  else encode_val ndebug (get_nibble val) val (pre ++ post) it = Abort.
Proof.
  intros Hval Hpre Hlen. unfold is_u32 in Hval.
  assert (Hfit : ndebug || negb (too_large val)
                 = negb (negb ndebug && (65535 <? u32 (val - 269)))
                   || (val <? 269)).
  { unfold too_large.
    destruct ndebug; simpl; [done|].
    destruct (Z.ltb_spec val 269) as [Hlt|Hge].
    - rewrite orb_true_r. apply negb_true_iff, Z.ltb_ge. lia.
    - rewrite orb_false_r. f_equal. rewrite u32_small by (unfold is_u32; lia).
      destruct (Z.ltb_spec 65804 val), (Z.ltb_spec 65535 (val - 269));
        try done; exfalso; lia. }
  rewrite Hfit. clear Hfit.
  unfold encode_val, ext_bytes in *.
  destruct (get_nibble_cases val ltac:(lia)) as [[H1 ->]|[[H1 ->]|[H1 ->]]].
  - rewrite (proj2 (Z.ltb_lt val 13)) by lia.
    rewrite (proj2 (Z.ltb_lt val 269)) by lia. rewrite orb_true_r.
    exists post. split; [done|]. by rewrite Nat.add_0_r, app_nil_r.
  - rewrite (proj2 (Z.ltb_ge val 13)) in * by lia.
    rewrite (proj2 (Z.ltb_lt val 269)) in * by lia. rewrite orb_true_r.
    simpl in *.
    destruct (store_at pre post (S it) (val - 13) Hpre ltac:(lia))
      as (post1 & Hl1 & ->).
    simpl. exists post1. split; [lia|]. by rewrite Nat.add_1_r.
  - rewrite (proj2 (Z.ltb_ge val 13)) in * by lia.
    rewrite (proj2 (Z.ltb_ge val 269)) in * by lia. rewrite orb_false_r.
    simpl in *.
    destruct (negb ndebug && (65535 <? u32 (val - 269))); simpl; [done|].
    destruct (store_at pre post (S it) (Z.shiftr (u32 (val - 269)) 8) Hpre ltac:(lia))
      as (post1 & Hl1 & ->).
    simpl.
    destruct (store_at (pre ++ [u8 (Z.shiftr (u32 (val - 269)) 8)]) post1
                (S (S it)) (u32 (val - 269))) as (post2 & Hl2 & ->).
    + rewrite length_app. simpl. lia.
    + lia.
    + simpl. exists post2. split; [lia|].
      rewrite <- (app_assoc pre). simpl. do 2 f_equal. lia.
Qed.

Lemma length_entry_bytes prev o :
  length (entry_bytes prev o)
  = (1 + length (ext_bytes (u32 (number o - prev)))
     + length (ext_bytes (size32 (value o))) + length (value o))%nat.
Proof.
  unfold entry_bytes. simpl. rewrite !length_app, length_fmap. lia.
Qed.

(** The second loop appends the entries, or stops at the first [assert]
    that fails. *)
Lemma encode_options_at ndebug options : ∀ prev pre post it,
  length pre = it →
  (length (options_bytes prev options) ≤ length post)%nat →
  if ndebug || options_fit prev options then
    ∃ post', length post = (length (options_bytes prev options) + length post')%nat
      ∧ encode_options ndebug options prev (pre ++ post) it
        = Ok ((pre ++ options_bytes prev options) ++ post',
              (it + length (options_bytes prev options))%nat)
  else encode_options ndebug options prev (pre ++ post) it = Abort.
Proof.
  induction options as [|o options IH]; intros prev pre post it Hpre Hlen.
  - simpl. rewrite orb_true_r. exists post.
    split; [done|]. by rewrite app_nil_r, Nat.add_0_r.
  - cbn [options_bytes options_fit encode_options] in *.
    rewrite length_app, length_entry_bytes in *.
    set (delta := u32 (number o - prev)) in *.
    set (len := size32 (value o)) in *.
    set (d := Z.lor (Z.shiftl (get_nibble delta) 4) (get_nibble len)).
    destruct (store_at pre post it d Hpre ltac:(lia)) as (post1 & Hl1 & ->).
    simpl.
    pose proof (encode_val_at ndebug delta (pre ++ [u8 d]) post1 it
                  (u32_range _)) as Hdelta.
    rewrite length_app in Hdelta. simpl in Hdelta.
    specialize (Hdelta ltac:(lia) ltac:(lia)).
    destruct (ndebug || negb (too_large delta)) eqn:Edelta; cycle 1.
    { rewrite Hdelta. simpl.
      destruct ndebug; [done|]. simpl in Edelta.
      apply negb_false_iff in Edelta. by rewrite Edelta. }
    destruct Hdelta as (post2 & Hl2 & ->). simpl.
    pose proof (encode_val_at ndebug len ((pre ++ [u8 d]) ++ ext_bytes delta)
                  post2 (it + length (ext_bytes delta))
                  (u32_range _)) as Hlength.
    rewrite !length_app in Hlength. simpl in Hlength.
    specialize (Hlength ltac:(lia) ltac:(lia)).
    destruct (ndebug || negb (too_large len)) eqn:Elen; cycle 1.
    { rewrite Hlength. simpl.
      destruct ndebug; [done|]. simpl in Elen.
      apply negb_false_iff in Elen. rewrite Elen.
      by rewrite andb_false_r. }
    destruct Hlength as (post3 & Hl3 & ->). simpl.
    destruct (copy_at (value o)
                (((pre ++ [u8 d]) ++ ext_bytes delta) ++ ext_bytes len) post3
                (S (it + length (ext_bytes delta) + length (ext_bytes len))))
      as (post4 & Hl4 & ->).
    { rewrite !length_app. simpl. lia. }
    { lia. }
    simpl.
    specialize (IH (number o)
      ((((pre ++ [u8 d]) ++ ext_bytes delta) ++ ext_bytes len) ++ (u8 <$> value o))
      post4
      (S (it + length (ext_bytes delta) + length (ext_bytes len)
          + length (value o)))).
    rewrite !length_app, length_fmap in IH. simpl in IH.
    specialize (IH ltac:(lia) ltac:(lia)).
    assert (Hcond : ndebug
                    || negb (too_large delta) && negb (too_large len)
                       && options_fit (number o) options
                    = ndebug || options_fit (number o) options).
    { destruct ndebug; [done|]. simpl in *. by rewrite Edelta, Elen. }
    rewrite Hcond.
    destruct (ndebug || options_fit (number o) options); [|done].
    destruct IH as (post5 & Hl5 & ->).
    exists post5. split; [lia|]. f_equal. f_equal.
    + unfold entry_bytes. fold delta len d.
      rewrite <- !app_assoc. simpl. by rewrite <- !app_assoc.
    + lia.
Qed.

Lemma required_size_options_length options : ∀ prev required_size,
  required_size_options options prev required_size
  = (required_size + length (options_bytes prev options))%nat.
Proof.
  induction options as [|o options IH]; intros prev required_size;
    cbn [required_size_options options_bytes].
  - simpl. lia.
  - rewrite IH, length_app, length_entry_bytes, <- !get_size_ext_bytes. lia.
Qed.

Lemma length_payload_bytes payload :
  length (payload_bytes payload)
  = match length payload with O => O | pl_size => (1 + pl_size)%nat end.
Proof. destruct payload; simpl; [done|]. by rewrite length_fmap. Qed.

(** What [to_bytes] returns: the concatenation [wire], unless an [assert]
    stops it. *)
Theorem to_bytes_wire ndebug self :
  to_bytes ndebug self
  = if ndebug || options_fit 0 (_options self) then Ok (wire self) else Abort.
Proof.
  unfold to_bytes.
  rewrite required_size_options_length.
  set (k := (length (_token self) + length (options_bytes 0 (_options self))
             + length (payload_bytes (_payload self)))%nat).
  assert (Hsize :
    (match length (_payload self) with
     | O => 4 + length (_token self)
     | S n => 4 + length (_token self) + (1 + S n)
     end + length (options_bytes 0 (_options self)))%nat = (4 + k)%nat).
  { subst k. rewrite length_payload_bytes.
    destruct (length (_payload self)); lia. }
  rewrite Hsize. clear Hsize.
  change (replicate (4 + k) 0) with ([] ++ 0 :: 0 :: 0 :: 0 :: replicate k 0).
  match goal with |- context [store ([] ++ ?a :: ?l) 0 ?v] =>
    change (store ([] ++ a :: l) 0 v)
      with (store ([] ++ a :: l) (length (@nil Z)) v) end.
  rewrite store_middle. cbn [mbind outcome_bind bind].
  match goal with |- context [store ([] ++ ?a :: ?l) 1 ?v] =>
    change (store ([] ++ a :: l) 1 v) with (store ([a] ++ l) (length [a]) v) end.
  rewrite store_middle. cbn [mbind outcome_bind bind].
  match goal with |- context [store ([?a] ++ ?b :: ?l) 2 ?v] =>
    change (store ([a] ++ b :: l) 2 v)
      with (store ([a; b] ++ l) (length [a; b]) v) end.
  rewrite store_middle. cbn [mbind outcome_bind bind].
  match goal with |- context [store ([?a; ?b] ++ ?c :: ?l) 3 ?v] =>
    change (store ([a; b] ++ c :: l) 3 v)
      with (store ([a; b; c] ++ l) (length [a; b; c]) v) end.
  rewrite store_middle. cbn [mbind outcome_bind bind].
  match goal with |- context [copy _ ([?a; ?b; ?c] ++ ?e :: replicate k 0)] =>
    change ([a; b; c] ++ e :: replicate k 0)
      with (header_bytes self ++ replicate k 0) end.
  destruct (copy_at (_token self) (header_bytes self) (replicate k 0) 4)
    as (post1 & Hl1 & ->); [done | rewrite length_replicate; lia |].
  rewrite length_replicate in Hl1. cbn [mbind outcome_bind bind].
  pose proof (encode_options_at ndebug (_options self) 0
                (header_bytes self ++ (u8 <$> _token self)) post1
                (4 + length (_token self))) as Hopts.
  rewrite length_app, length_fmap in Hopts.
  specialize (Hopts ltac:(done) ltac:(lia)).
  destruct (ndebug || options_fit 0 (_options self)); cycle 1.
  { by rewrite Hopts. }
  destruct Hopts as (post2 & Hl2 & ->). cbn [mbind outcome_bind bind].
  assert (Hl3 : length post2 = length (payload_bytes (_payload self))) by lia.
  clear Hl1 Hl2. unfold wire, frame.
  destruct (_payload self) as [|x payload] eqn:Epayload.
  - cbn [length payload_bytes] in *. destruct post2; [|done].
    rewrite !app_nil_r. by rewrite <- app_assoc.
  - cbn [length].
    destruct (store_at
                ((header_bytes self ++ (u8 <$> _token self))
                 ++ options_bytes 0 (_options self)) post2
                (4 + length (_token self)
                 + length (options_bytes 0 (_options self))) 255)
      as (post3 & Hl4 & Hstore).
    { rewrite !length_app, length_fmap. done. }
    { rewrite Hl3. simpl. lia. }
    rewrite Hstore. cbn [mbind outcome_bind bind].
    destruct (copy_at (x :: payload)
                (((header_bytes self ++ (u8 <$> _token self))
                  ++ options_bytes 0 (_options self)) ++ [u8 255]) post3
                (S (4 + length (_token self)
                    + length (options_bytes 0 (_options self)))))
      as (post4 & Hl5 & Hcopy).
    { rewrite !length_app, length_fmap. simpl. lia. }
    { rewrite Hl3 in Hl4. simpl in Hl4. rewrite length_fmap in Hl4.
      simpl. lia. }
    rewrite Hcopy.
    rewrite Hl3 in Hl4. simpl in Hl4, Hl5. rewrite length_fmap in Hl4.
    destruct post4; [|simpl in Hl5; lia].
    f_equal. rewrite app_nil_r. rewrite <- !app_assoc. reflexivity.
Qed.

End Encoder.

(** ** [from] reads back what [to_bytes] writes *)

Section Decoder.

Lemma deref_app_r pre l i : deref (pre ++ l) (length pre + i) = deref l i.
Proof.
  unfold deref. rewrite lookup_app_r by lia.
  by replace (length pre + i - length pre)%nat with i by lia.
Qed.

Lemma range_middle pre l post n :
  n = (length pre + length l)%nat →
  range (pre ++ l ++ post) (length pre) n = l.
Proof.
  intros ->. unfold range. rewrite drop_app_length.
  replace (length pre + length l - length pre)%nat with (length l) by lia.
  apply take_app_length.
Qed.

Lemma fmap_u8_wf l : wf_bytes l → u8 <$> l = l.
Proof.
  induction 1 as [|x l Hx Hl IH]; [done|].
  rewrite fmap_cons, IH, u8_small; done.
Qed.

Lemma size32_small l : Z.of_nat (length l) <= 65804 → size32 l = Z.of_nat (length l).
Proof. intros H. apply u32_small. unfold is_u32. lia. Qed.

(** [parse_value] resolves the nibble [get_nibble] chose from the bytes
    [encode_val] wrote. *)
Lemma parse_value_ext bytes val pre post it :
  0 <= val <= 65804 →
  bytes = pre ++ ext_bytes val ++ post → length pre = S it →
  parse_value bytes (get_nibble val) it
  = Ok (val, (it + length (ext_bytes val))%nat).
Proof.
  intros Hval -> Hpre. unfold parse_value, ext_bytes.
  replace (S (S it)) with (length pre + 1)%nat by lia.
  replace (S it) with (length pre + 0)%nat by lia.
  rewrite !deref_app_r.
  destruct (get_nibble_cases val ltac:(lia)) as [[H1 ->]|[[H1 ->]|[H1 ->]]].
  - rewrite (proj2 (Z.ltb_lt val 13)) by lia.
    rewrite (proj2 (Z.eqb_neq val 13)), (proj2 (Z.eqb_neq val 14)),
      (proj2 (Z.eqb_neq val 15)) by lia.
    simpl. by rewrite Nat.add_0_r.
  - rewrite (proj2 (Z.ltb_ge val 13)), (proj2 (Z.ltb_lt val 269)) by lia.
    simpl. rewrite u8_small by (unfold is_u8; lia).
    do 2 f_equal; lia.
  - rewrite (proj2 (Z.ltb_ge val 13)), (proj2 (Z.ltb_ge val 269)) by lia.
    simpl. rewrite u32_small by (unfold is_u32; lia).
    destruct (word_split (val - 269)) as [Hhi Hjoin]; [unfold is_u16; lia|].
    rewrite (u8_small (Z.shiftr _ 8)) by done. rewrite Hjoin.
    do 2 f_equal; lia.
Qed.

Lemma descriptor_encoded delta len :
  0 <= delta → 0 <= len →
  let d := u8 (Z.lor (Z.shiftl (get_nibble delta) 4) (get_nibble len)) in
  d ≠ 255 ∧ Z.shiftr d 4 = get_nibble delta ∧ Z.land d 15 = get_nibble len.
Proof.
  intros Hdelta Hlen.
  pose proof (get_nibble_range delta Hdelta) as Hn1.
  pose proof (get_nibble_range len Hlen) as Hn2.
  destruct (descriptor_join (get_nibble delta) (get_nibble len))
    as (Hd & Hhi & Hlo); [lia | lia |].
  cbn zeta. rewrite u8_small by done. split; [|done].
  intros Heq. rewrite Heq in Hhi. change (Z.shiftr 255 4) with 15 in Hhi. lia.
Qed.

Lemma u32_delta prev n :
  is_u32 n → u32 (prev + u32 (n - prev)) = n.
Proof.
  intros Hn. unfold u32. rewrite Zplus_mod_idemp_r.
  replace (prev + (n - prev)) with n by lia. by apply u32_small.
Qed.

(** The loop reads the entries [encode_options] wrote, and stops where
    they stop. *)
Lemma parse_options_frame options : ∀ fuel bytes pre post prev acc,
  Forall wf_option options → representable prev options → is_u32 prev →
  sentinel_or_end post → (length options ≤ fuel)%nat →
  bytes = pre ++ options_bytes prev options ++ post →
  parse_options fuel bytes (length pre) prev acc
  = Ok (acc ++ options, (length pre + length (options_bytes prev options))%nat).
Proof.
  induction options as [|o options IH];
    intros fuel bytes pre post prev acc Hwf Hrep Hprev Hpost Hfuel Hbytes.
  - simpl in Hbytes. subst bytes. rewrite app_nil_r, Nat.add_0_r.
    destruct Hpost as [-> | [payload ->]].
    + rewrite app_nil_r. destruct fuel; simpl;
        by rewrite (proj2 (lookup_ge_None pre (length pre))) by lia.
    + destruct fuel; simpl; by rewrite list_lookup_middle.
  - destruct fuel as [|fuel]; [simpl in Hfuel; lia|].
    apply Forall_cons_1 in Hwf as [[Hnum Hval] Hwf].
    destruct Hrep as (Hdelta & Hlen & Hrep).
    cbn [options_bytes] in Hbytes. unfold entry_bytes in Hbytes.
    rewrite (fmap_u8_wf _ Hval), (size32_small _ Hlen) in Hbytes.
    set (delta := u32 (number o - prev)) in *.
    set (len := Z.of_nat (length (value o))) in *.
    set (d := u8 (Z.lor (Z.shiftl (get_nibble delta) 4) (get_nibble len))) in *.
    assert (0 <= delta) as Hdelta0 by apply u32_range.
    assert (0 <= len) as Hlen0 by (subst len; lia).
    destruct (descriptor_encoded delta len Hdelta0 Hlen0) as (Hd & Hhi & Hlo).
    fold d in Hd, Hhi, Hlo.
    set (tail := options_bytes (number o) options ++ post) in *.
    assert (Hb0 : bytes = pre ++ d :: (ext_bytes delta ++ ext_bytes len
                                       ++ value o ++ tail)).
    { rewrite Hbytes. subst tail. simpl. by rewrite <- !app_assoc. }
    assert (Hb1 : bytes = (pre ++ [d]) ++ ext_bytes delta
                          ++ (ext_bytes len ++ value o ++ tail)).
    { rewrite Hb0. by rewrite <- app_assoc. }
    assert (Hb2 : bytes = ((pre ++ [d]) ++ ext_bytes delta) ++ ext_bytes len
                          ++ (value o ++ tail)).
    { rewrite Hb1. by rewrite <- !app_assoc. }
    assert (Hb3 : bytes = (((pre ++ [d]) ++ ext_bytes delta) ++ ext_bytes len)
                          ++ value o ++ tail).
    { rewrite Hb2. by rewrite <- !app_assoc. }
    assert (Hb4 : bytes = ((((pre ++ [d]) ++ ext_bytes delta) ++ ext_bytes len)
                           ++ value o) ++ options_bytes (number o) options ++ post).
    { rewrite Hb3. by rewrite <- !app_assoc. }
    cbn [parse_options].
    assert (bytes !! length pre = Some d) as ->
      by (rewrite Hb0; apply list_lookup_middle; done).
    rewrite (proj2 (Z.eqb_neq d 255)) by done.
    rewrite Hhi, Hlo.
    rewrite (parse_value_ext bytes delta (pre ++ [d]) _ (length pre)
               ltac:(lia) Hb1)
      by (rewrite length_app; simpl; lia).
    cbn [mbind outcome_bind bind].
    rewrite (parse_value_ext bytes len ((pre ++ [d]) ++ ext_bytes delta) _
               (length pre + length (ext_bytes delta)) ltac:(lia) Hb2)
      by (rewrite !length_app; simpl; lia).
    cbn [mbind outcome_bind bind].
    set (it := S (length pre + length (ext_bytes delta) + length (ext_bytes len))).
    assert (Hit : it = length (((pre ++ [d]) ++ ext_bytes delta) ++ ext_bytes len)).
    { subst it. rewrite !length_app. simpl. lia. }
    assert (Hto : Z.to_nat len = length (value o)) by (subst len; lia).
    rewrite Hto.
    rewrite bool_decide_eq_false_2; cycle 1.
    { rewrite Hb3, Hit, !length_app. lia. }
    replace (u32 (prev + delta)) with (number o)
      by (symmetry; apply u32_delta; done).
    assert (range bytes it (it + length (value o)) = value o) as ->.
    { rewrite Hb3 at 1. rewrite Hit. by apply range_middle. }
    assert (Hend : (it + length (value o))%nat
                   = length ((((pre ++ [d]) ++ ext_bytes delta) ++ ext_bytes len)
                             ++ value o)).
    { rewrite length_app. lia. }
    rewrite Hend.
    rewrite (IH fuel bytes _ post (number o) _ Hwf Hrep Hnum Hpost
               ltac:(simpl in Hfuel; lia) Hb4).
    f_equal. f_equal.
    + rewrite <- app_assoc. by destruct o.
    + rewrite !length_app. simpl. rewrite !length_app, length_fmap.
      rewrite (size32_small _ Hlen). fold delta len. lia.
Qed.

Lemma header_byte_encoded t n :
  0 <= t <= 3 → 0 <= n <= 8 →
  let h := u8 (Z.lor (Z.lor (Z.shiftl 1 6) (Z.shiftl t 4)) n) in
  Z.shiftr h 6 = 1 ∧ Z.shiftr (Z.land h 48) 4 = t ∧ Z.land h 15 = n.
Proof.
  intros Ht Hn.
  assert (Hall : ∀ x, 0 <= x < 4 →
    Forall (λ y, Z.shiftr (u8 (Z.lor (Z.lor (Z.shiftl 1 6) (Z.shiftl x 4)) y)) 6 = 1
                 ∧ Z.shiftr (Z.land (u8 (Z.lor (Z.lor (Z.shiftl 1 6) (Z.shiftl x 4)) y)) 48) 4 = x
                 ∧ Z.land (u8 (Z.lor (Z.lor (Z.shiftl 1 6) (Z.shiftl x 4)) y)) 15 = y)
           (seqZ 0 9)).
  { apply (range_check _ 4). vm_compute. reflexivity. }
  specialize (Hall t ltac:(lia)). rewrite Forall_seqZ in Hall. apply Hall. lia.
Qed.

Lemma message_id_encoded mid :
  is_u16 mid →
  u16 (Z.lor (Z.shiftl (u8 (Z.shiftr mid 8)) 8) (u8 mid)) = mid.
Proof.
  intros Hmid. destruct (word_split mid Hmid) as [Hhi Hjoin].
  rewrite (u8_small (Z.shiftr mid 8)) by done.
  rewrite Hjoin. by apply u16_small.
Qed.

Lemma length_options_bytes options : ∀ prev,
  (length options ≤ length (options_bytes prev options))%nat.
Proof.
  induction options as [|o options IH]; intros prev; simpl; [lia|].
  rewrite length_app. specialize (IH (number o)). lia.
Qed.

(** [from] on a frame that ends there, or goes on with the separator. *)
Theorem from_frame self post :
  wf_pdu self → representable 0 (_options self) → sentinel_or_end post →
  from (frame self ++ post) = Ok (with_payload self (tail post)).
Proof.
  intros [Hver Htype Hcode Hmid Htok Htkl Hopts Hpay] Hrep Hpost.
  destruct self as [ver type code mid token options payload].
  cbn [_version _type _code _message_id _token _options _payload] in *.
  subst ver. unfold frame, with_payload.
  cbn [_version _type _code _message_id _token _options _payload].
  rewrite (fmap_u8_wf _ Htok).
  destruct (header_byte_encoded type (Z.of_nat (length token)) Htype ltac:(lia))
    as (Hh1 & Hh2 & Hh3).
  pose proof (message_id_encoded mid Hmid) as Hm.
  set (bytes := (header_bytes _ ++ token ++ options_bytes 0 options) ++ post).
  assert (Hb : bytes = header_bytes (mk_pdu 1 type code mid token options payload)
                       ++ token ++ options_bytes 0 options ++ post).
  { subst bytes. by rewrite <- !app_assoc. }
  assert (Hlen : length bytes
                 = (4 + length token + length (options_bytes 0 options)
                    + length post)%nat).
  { rewrite Hb. rewrite !length_app. simpl. lia. }
  unfold from, parse_header.
  rewrite bool_decide_eq_false_2 by lia.
  assert (deref bytes 0 = Ok (u8 (Z.lor (Z.lor (Z.shiftl 1 6) (Z.shiftl type 4))
                                       (Z.of_nat (length token))))) as ->
    by (rewrite Hb; reflexivity).
  assert (deref bytes 1 = Ok (u8 code)) as -> by (rewrite Hb; reflexivity).
  assert (deref bytes 2 = Ok (u8 (Z.shiftr mid 8))) as ->
    by (rewrite Hb; reflexivity).
  assert (deref bytes 3 = Ok (u8 mid)) as -> by (rewrite Hb; reflexivity).
  cbn [mbind outcome_bind bind].
  rewrite Hh1, Hh2, Hh3, Hm, (u8_small code) by done.
  rewrite bool_decide_eq_false_2 by lia.
  rewrite bool_decide_eq_false_2 by lia.
  cbn [mbind outcome_bind bind h_version h_type h_token_length h_code h_message_id].
  rewrite Nat2Z.id.
  rewrite bool_decide_eq_false_2 by lia.
  assert (range bytes 4 (4 + length token) = token) as ->.
  { rewrite Hb. apply (range_middle (header_bytes _)). reflexivity. }
  cbn [_version _type _code _message_id _token _options _payload].
  pose proof (length_options_bytes options 0) as Hlo.
  assert (Hparse :
    parse_options (length bytes) bytes (4 + length token) 0 []
    = Ok (options, (4 + length token + length (options_bytes 0 options))%nat)).
  { pose proof (parse_options_frame options (length bytes) bytes
                  (header_bytes (mk_pdu 1 type code mid token options payload)
                   ++ token) post 0 [] Hopts Hrep) as Hloop.
    rewrite length_app in Hloop.
    change (length (header_bytes _)) with 4%nat in Hloop.
    apply Hloop; [unfold is_u32; lia | done | lia |].
    rewrite Hb. by rewrite <- app_assoc. }
  case_bool_decide as Hend.
  - destruct options as [|o options]; [|simpl in *; lia].
    destruct post; [done | simpl in *; lia].
  - rewrite Hparse. cbn [mbind outcome_bind bind].
    case_bool_decide as Hend'.
    + destruct post; [done | simpl in *; lia].
    + destruct Hpost as [-> | [pl ->]]; [simpl in *; lia|].
      do 2 f_equal. cbn [tail]. unfold range.
      rewrite Hb, !app_assoc.
      rewrite (cons_middle 255 _ pl), app_assoc.
      rewrite drop_app_length'; cycle 1.
      { rewrite !length_app. simpl. lia. }
      apply firstn_all2. rewrite !length_app. simpl. lia.
Qed.

End Decoder.

(** ** What [from] accepts is what [to_bytes] writes *)

Section Inversion.

Lemma range_range (l : list Z) a b c :
  (a ≤ b)%nat → (b ≤ c)%nat → range l a b ++ range l b c = range l a c.
Proof.
  intros Hab Hbc. unfold range.
  replace (drop b l) with (drop (b - a) (drop a l))
    by (rewrite drop_drop; f_equal; lia).
  rewrite take_take_drop. f_equal. lia.
Qed.

Lemma range_one (l : list Z) a x : l !! a = Some x → range l a (S a) = [x].
Proof.
  intros Hx. unfold range. rewrite (drop_S _ _ _ Hx).
  replace (S a - a)%nat with 1%nat by lia. reflexivity.
Qed.

Lemma range_nil (l : list Z) a : range l a a = [].
Proof. unfold range. by rewrite Nat.sub_diag. Qed.

Lemma range_wf l a b : wf_bytes l → wf_bytes (range l a b).
Proof. intros Hl. by apply Forall_take, Forall_drop. Qed.

Lemma length_range (l : list Z) a b :
  (a ≤ b)%nat → (b ≤ length l)%nat → length (range l a b) = (b - a)%nat.
Proof.
  intros Hab Hb. unfold range. rewrite length_take, length_drop. lia.
Qed.

Lemma deref_Ok bytes it b : deref bytes it = Ok b → bytes !! it = Some b.
Proof. unfold deref. destruct (bytes !! it); congruence. Qed.

(** Whatever [parse_value] resolves, [get_nibble] and [encode_val] send
    back to the same nibble and the same extension bytes. *)
Lemma parse_value_inv bytes nibble it val it' :
  wf_bytes bytes → 0 <= nibble < 16 →
  parse_value bytes nibble it = Ok (val, it') →
  0 <= val <= 65804 ∧ get_nibble val = nibble
  ∧ (it ≤ it')%nat ∧ (it' = it ∨ it' < length bytes)%nat
  ∧ range bytes (S it) (S it') = ext_bytes val.
Proof.
  intros Hwf Hnib. unfold parse_value.
  destruct (Z.eqb_spec nibble 13) as [-> | Hn13].
  { destruct (deref bytes (S it)) as [b| | | |] eqn:Hb; try discriminate.
    cbn [mbind outcome_bind bind]. intros [= <- <-].
    apply deref_Ok in Hb.
    pose proof (Forall_lookup_1 _ _ _ _ Hwf Hb) as Hrange.
    pose proof (lookup_lt_Some _ _ _ Hb) as Hlt.
    unfold is_u8 in Hrange. unfold get_nibble, ext_bytes.
    rewrite (proj2 (Z.ltb_ge (13 + b) 13)), (proj2 (Z.ltb_lt (13 + b) 269)) by lia.
    repeat split; try lia.
    rewrite (range_one _ _ _ Hb). f_equal.
    replace (13 + b - 13) with b by lia. symmetry. by apply u8_small. }
  destruct (Z.eqb_spec nibble 14) as [-> | Hn14].
  { destruct (deref bytes (S it)) as [hi| | | |] eqn:Hhi; try discriminate.
    cbn [mbind outcome_bind bind].
    destruct (deref bytes (S (S it))) as [lo| | | |] eqn:Hlo; try discriminate.
    cbn [mbind outcome_bind bind]. intros [= <- <-].
    apply deref_Ok in Hhi, Hlo.
    pose proof (Forall_lookup_1 _ _ _ _ Hwf Hhi) as Hrhi.
    pose proof (Forall_lookup_1 _ _ _ _ Hwf Hlo) as Hrlo.
    pose proof (lookup_lt_Some _ _ _ Hlo) as Hlt.
    destruct (word_join hi lo Hrhi Hrlo) as (He & Hjhi & Hjlo).
    set (e := Z.lor (Z.shiftl hi 8) lo) in *.
    unfold is_u16 in He. unfold get_nibble, ext_bytes.
    rewrite (proj2 (Z.ltb_ge (269 + e) 13)), (proj2 (Z.ltb_ge (269 + e) 269)) by lia.
    repeat split; try lia.
    rewrite <- (range_range bytes (S it) (S (S it)) (S (S (S it)))) by lia.
    rewrite (range_one _ _ _ Hhi), (range_one _ _ _ Hlo).
    replace (269 + e - 269) with e by lia.
    rewrite u32_small by (unfold is_u32; lia).
    by rewrite Hjhi, Hjlo. }
  destruct (Z.eqb_spec nibble 15) as [-> | Hn15]; [discriminate|].
  intros [= <- <-].
  unfold get_nibble, ext_bytes.
  rewrite (proj2 (Z.ltb_lt nibble 13)) by lia.
  repeat split; try lia.
  - apply u8_small. unfold is_u8. lia.
  - apply range_nil.
Qed.

Lemma u32_delta_inv num delta :
  is_u32 delta → u32 (u32 (num + delta) - num) = delta.
Proof.
  intros Hdelta. unfold u32. rewrite Zminus_mod_idemp_l.
  replace (num + delta - num) with delta by lia. by apply u32_small.
Qed.

(** The loop, read backwards: the bytes it went over are the entries of
    the options it added, and it stopped at the end or on a separator. *)
Lemma parse_options_inv fuel : ∀ bytes it num acc options it',
  wf_bytes bytes → (it ≤ length bytes)%nat →
  parse_options fuel bytes it num acc = Ok (options, it') →
  ∃ new, options = acc ++ new
    ∧ Forall wf_option new ∧ representable num new
    ∧ (it ≤ it')%nat ∧ (it' ≤ length bytes)%nat
    ∧ range bytes it it' = options_bytes num new
    ∧ (bytes !! it' = None ∨ bytes !! it' = Some 255).
Proof.
  assert (Hexit : ∀ (bytes : list Z) it num (acc : list coapp_option),
    (it ≤ length bytes)%nat →
    (bytes !! it = None ∨ bytes !! it = Some 255) →
    ∃ new, acc = acc ++ new
      ∧ Forall wf_option new ∧ representable num new
      ∧ (it ≤ it)%nat ∧ (it ≤ length bytes)%nat
      ∧ range bytes it it = options_bytes num new
      ∧ (bytes !! it = None ∨ bytes !! it = Some 255)).
  { intros bytes it num acc Hit Hstop. exists [].
    rewrite app_nil_r, range_nil. simpl. repeat split; auto. }
  induction fuel as [|fuel IH];
    intros bytes it num acc options it' Hwf Hit Hrun;
    cbn [parse_options] in Hrun;
    destruct (bytes !! it) as [d|] eqn:Hd;
    try (injection Hrun as <- <-; apply Hexit; auto; fail);
    destruct (Z.eqb_spec d 255) as [-> | Hd255];
    try (injection Hrun as <- <-; apply Hexit; auto; fail);
    try discriminate.
  pose proof (Forall_lookup_1 _ _ _ _ Hwf Hd) as Hdrange.
  destruct (descriptor_split d Hdrange) as (Hjoin & Hhi & Hlo & _).
  destruct (parse_value bytes (Z.shiftr d 4) it) as [[delta it1]| | | |] eqn:Hp1;
    try discriminate.
  cbn [mbind outcome_bind bind] in Hrun.
  destruct (parse_value bytes (Z.land d 15) it1) as [[len it2]| | | |] eqn:Hp2;
    try discriminate.
  cbn [mbind outcome_bind bind] in Hrun.
  case_bool_decide as Hend; [discriminate|].
  apply parse_value_inv in Hp1 as (Hdelta & Hn1 & Hle1 & _ & Hext1); [|done..].
  apply parse_value_inv in Hp2 as (Hlen & Hn2 & Hle2 & _ & Hext2); [|done..].
  set (option_end := (S it2 + Z.to_nat len)%nat) in *.
  set (v := range bytes (S it2) option_end) in *.
  assert (Hlv : length v = Z.to_nat len).
  { subst v. rewrite length_range; subst option_end; lia. }
  apply IH in Hrun as (new & -> & Hwfnew & Hrep & Hle3 & Hle4 & Hrange & Hstop);
    [|done|lia].
  exists (mk_option (u32 (num + delta)) v :: new).
  assert (Hsize : size32 v = len).
  { apply eq_trans with (Z.of_nat (length v)); [apply size32_small|]; lia. }
  assert (Hd32 : u32 (u32 (num + delta) - num) = delta).
  { apply u32_delta_inv. unfold is_u32. lia. }
  repeat split; try done; try lia.
  - by rewrite <- app_assoc.
  - constructor; [|done]. split; [apply u32_range | by apply range_wf].
  - cbn [number]. lia.
  - cbn [value]. lia.
  - cbn [options_bytes number value]. rewrite <- Hrange. unfold entry_bytes.
    cbn [number value]. rewrite Hd32, Hsize, Hn1, Hn2, Hjoin.
    rewrite (u8_small d) by done.
    rewrite (fmap_u8_wf v) by (by apply range_wf).
    rewrite <- Hext1, <- Hext2. subst v.
    rewrite <- (range_range bytes it option_end it') by lia.
    f_equal.
    rewrite <- (range_range bytes it (S it) option_end) by lia.
    rewrite (range_one _ _ _ Hd).
    rewrite <- (range_range bytes (S it) (S it1) option_end) by lia.
    rewrite <- (range_range bytes (S it1) (S it2) option_end) by lia.
    reflexivity.
Qed.

Lemma header_byte_split h :
  is_u8 h → Z.shiftr h 6 = 1 → Z.land h 15 <= 8 →
  0 <= Z.shiftr (Z.land h 48) 4 <= 3 ∧ 0 <= Z.land h 15
  ∧ u8 (Z.lor (Z.lor (Z.shiftl 1 6) (Z.shiftl (Z.shiftr (Z.land h 48) 4) 4))
              (Z.land h 15)) = h.
Proof.
  unfold is_u8. revert h.
  apply (range_check
    (λ h, Z.shiftr h 6 = 1 → Z.land h 15 <= 8 →
          0 <= Z.shiftr (Z.land h 48) 4 <= 3 ∧ 0 <= Z.land h 15
          ∧ u8 (Z.lor (Z.lor (Z.shiftl 1 6) (Z.shiftl (Z.shiftr (Z.land h 48) 4) 4))
                      (Z.land h 15)) = h) 256).
  vm_compute. reflexivity.
Qed.

Lemma parse_header_inv bytes h :
  wf_bytes bytes → parse_header bytes = Ok h →
  (4 ≤ length bytes)%nat
  ∧ h_version h = 1 ∧ 0 <= h_type h <= 3 ∧ 0 <= h_token_length h <= 8
  ∧ is_u8 (h_code h) ∧ is_u16 (h_message_id h)
  ∧ range bytes 0 4
    = [ u8 (Z.lor (Z.lor (Z.shiftl 1 6) (Z.shiftl (h_type h) 4)) (h_token_length h));
        u8 (h_code h); u8 (Z.shiftr (h_message_id h) 8); u8 (h_message_id h) ].
Proof.
  intros Hwf. unfold parse_header.
  case_bool_decide as Hlen; [discriminate|].
  destruct bytes as [|b0 [|b1 [|b2 [|b3 bytes]]]]; try (simpl in Hlen; lia).
  cbn [deref lookup list_lookup mbind outcome_bind bind].
  case_bool_decide as Hver; [discriminate|].
  case_bool_decide as Htkl; [discriminate|].
  intros [= <-]. cbn [h_version h_type h_token_length h_code h_message_id].
  apply Forall_cons_1 in Hwf as [H0 Hwf].
  apply Forall_cons_1 in Hwf as [H1 Hwf].
  apply Forall_cons_1 in Hwf as [H2 Hwf].
  apply Forall_cons_1 in Hwf as [H3 Hwf].
  destruct (header_byte_split b0 H0 Hver ltac:(lia)) as (Ht & Hn & Hb0).
  destruct (word_join b2 b3 H2 H3) as (Hmid & Hhi & Hlo).
  rewrite (u16_small _ Hmid), Hhi, Hlo, Hb0, (u8_small b1) by done.
  unfold is_u8, is_u16 in *.
  repeat split; try done; try lia.
Qed.

Lemma range_split (l : list Z) a :
  (a ≤ length l)%nat → l = range l 0 a ++ drop a l.
Proof.
  intros Ha. unfold range. rewrite drop_0, Nat.sub_0_r. by rewrite take_drop.
Qed.

(** Every buffer [from] accepts is a frame, followed by nothing or by the
    separator and the payload. *)
Theorem from_inv bytes self :
  wf_bytes bytes → from bytes = Ok self →
  wf_pdu self ∧ representable 0 (_options self)
  ∧ ∃ post, bytes = frame self ++ post
      ∧ (post = [] ∧ _payload self = [] ∨ post = 255 :: _payload self).
Proof.
  intros Hwf. unfold from.
  destruct (parse_header bytes) as [h| | | |] eqn:Hh; try discriminate.
  cbn [mbind outcome_bind bind].
  destruct (parse_header_inv bytes h Hwf Hh)
    as (Hlen & Hver & Htype & Htkl & Hcode & Hmid & Hhdr).
  set (it := (4 + Z.to_nat (h_token_length h))%nat).
  case_bool_decide as Htok; [discriminate|].
  assert (Hltok : length (range bytes 4 it) = Z.to_nat (h_token_length h)).
  { rewrite length_range; subst it; lia. }
  assert (Hframe0 : header_bytes
            {| _version := h_version h; _type := h_type h; _code := h_code h;
               _message_id := h_message_id h; _token := range bytes 4 it;
               _options := []; _payload := [] |}
          ++ (u8 <$> range bytes 4 it) = range bytes 0 it).
  { unfold header_bytes.
    cbn [_version _type _code _message_id _token].
    rewrite Hltok, Z2Nat.id, Hver, <- Hhdr by lia.
    rewrite fmap_u8_wf by (by apply range_wf).
    apply range_range; subst it; lia. }
  case_bool_decide as Hend.
  { intros [= <-].
    cbn [_version _type _code _message_id _token _options _payload].
    split; [|split; [done|]].
    - constructor; cbn [_version _type _code _message_id _token _options _payload];
        try done; try lia. { by apply range_wf. } { constructor. }
    - exists []. split; [|by left].
      unfold frame. cbn [_token _options options_bytes].
      rewrite !app_nil_r, Hframe0.
      rewrite (range_split bytes it) at 1 by lia.
      rewrite drop_ge by lia. by rewrite app_nil_r. }
  destruct (parse_options (length bytes) bytes it 0 [])
    as [[options it']| | | |] eqn:Hloop; try discriminate.
  cbn [mbind outcome_bind bind].
  apply parse_options_inv in Hloop
    as (new & Hnew & Hwfnew & Hrep & Hle & Hle' & Hrange & Hstop);
    [|done|lia].
  simpl in Hnew. subst new.
  assert (Hframe : ∀ payload,
    frame {| _version := h_version h; _type := h_type h; _code := h_code h;
             _message_id := h_message_id h; _token := range bytes 4 it;
             _options := options; _payload := payload |}
    = range bytes 0 it').
  { intros payload. unfold frame.
    cbn [_token _options]. rewrite <- Hrange, app_assoc.
    change (header_bytes ?p) with (header_bytes
            {| _version := h_version h; _type := h_type h; _code := h_code h;
               _message_id := h_message_id h; _token := range bytes 4 it;
               _options := []; _payload := [] |}).
    rewrite Hframe0. apply range_range; lia. }
  cbn [_version _type _code _message_id _token _options _payload].
  case_bool_decide as Hend'.
  { intros [= <-].
    cbn [_version _type _code _message_id _token _options _payload].
    split; [|split; [done|]].
    - constructor; cbn [_version _type _code _message_id _token _options _payload];
        try done; try lia. { by apply range_wf. } { constructor. }
    - exists []. split; [|by left].
      rewrite Hframe, app_nil_r.
      rewrite (range_split bytes it') at 1 by lia.
      rewrite drop_ge by lia. by rewrite app_nil_r. }
  intros [= <-].
  cbn [_version _type _code _message_id _token _options _payload].
  destruct Hstop as [Hnone | Hsep].
  { apply lookup_ge_None in Hnone. lia. }
  assert (Hpl : range bytes (S it') (length bytes) = drop (S it') bytes).
  { unfold range. apply take_ge. rewrite length_drop. lia. }
  split; [|split; [done|]].
  - constructor; cbn [_version _type _code _message_id _token _options _payload];
      try done; try lia. { by apply range_wf. } { by apply range_wf. }
  - exists (255 :: drop (S it') bytes). rewrite Hpl. split; [|by right].
    rewrite Hframe, <- (drop_S _ _ _ Hsep). apply range_split. lia.
Qed.

End Inversion.

(** ** The loop of [from] terminates *)

Section Termination.

Lemma parse_value_advances bytes nibble it val it' :
  parse_value bytes nibble it = Ok (val, it') → (it ≤ it')%nat.
Proof.
  unfold parse_value.
  destruct (nibble =? 13).
  { destruct (deref bytes (S it)); try discriminate.
    cbn [mbind outcome_bind bind]. intros [= _ <-]. lia. }
  destruct (nibble =? 14).
  { destruct (deref bytes (S it)); try discriminate.
    cbn [mbind outcome_bind bind].
    destruct (deref bytes (S (S it))); try discriminate.
    cbn [mbind outcome_bind bind]. intros [= _ <-]. lia. }
  destruct (nibble =? 15); [discriminate|].
  intros [= _ <-]. lia.
Qed.

Lemma deref_fuel bytes it : deref bytes it ≠ OutOfFuel.
Proof. unfold deref. by destruct (bytes !! it). Qed.

Lemma parse_value_fuel bytes nibble it :
  parse_value bytes nibble it ≠ OutOfFuel.
Proof.
  unfold parse_value.
  destruct (nibble =? 13).
  { pose proof (deref_fuel bytes (S it)).
    by destruct (deref bytes (S it)). }
  destruct (nibble =? 14).
  { pose proof (deref_fuel bytes (S it)).
    pose proof (deref_fuel bytes (S (S it))).
    destruct (deref bytes (S it)); try done.
    cbn [mbind outcome_bind bind].
    by destruct (deref bytes (S (S it))). }
  by destruct (nibble =? 15).
Qed.

(** One unit of fuel for every byte still to read is enough. *)
Lemma parse_options_fuel fuel : ∀ bytes it num acc,
  (length bytes - it ≤ fuel)%nat →
  parse_options fuel bytes it num acc ≠ OutOfFuel.
Proof.
  induction fuel as [|fuel IH]; intros bytes it num acc Hfuel;
    cbn [parse_options];
    destruct (bytes !! it) as [d|] eqn:Hd; try discriminate;
    destruct (d =? 255); try discriminate.
  - apply lookup_lt_Some in Hd. lia.
  - apply lookup_lt_Some in Hd.
    pose proof (parse_value_fuel bytes (Z.shiftr d 4) it) as Hf1.
    destruct (parse_value bytes (Z.shiftr d 4) it) as [[delta it1]| | | |] eqn:Hp1;
      try discriminate; [|done].
    cbn [mbind outcome_bind bind].
    pose proof (parse_value_fuel bytes (Z.land d 15) it1) as Hf2.
    destruct (parse_value bytes (Z.land d 15) it1) as [[len it2]| | | |] eqn:Hp2;
      try discriminate; [|done].
    cbn [mbind outcome_bind bind].
    apply parse_value_advances in Hp1, Hp2.
    case_bool_decide; [discriminate|].
    apply IH. lia.
Qed.

Lemma parse_header_fuel bytes : parse_header bytes ≠ OutOfFuel.
Proof.
  unfold parse_header.
  case_bool_decide; [discriminate|].
  pose proof (deref_fuel bytes 0). destruct (deref bytes 0); try done.
  cbn [mbind outcome_bind bind].
  case_bool_decide; [discriminate|].
  case_bool_decide; [discriminate|].
  pose proof (deref_fuel bytes 1). destruct (deref bytes 1); try done.
  cbn [mbind outcome_bind bind].
  pose proof (deref_fuel bytes 2). destruct (deref bytes 2); try done.
  cbn [mbind outcome_bind bind].
  pose proof (deref_fuel bytes 3). by destruct (deref bytes 3).
Qed.

Theorem from_total bytes : from bytes ≠ OutOfFuel.
Proof.
  unfold from.
  pose proof (parse_header_fuel bytes) as Hh.
  destruct (parse_header bytes) as [h| | | |]; try discriminate; [|done].
  cbn [mbind outcome_bind bind].
  case_bool_decide; [discriminate|].
  case_bool_decide; [discriminate|].
  pose proof (parse_options_fuel (length bytes) bytes
                (4 + Z.to_nat (h_token_length h)) 0 [] ltac:(lia)) as Hfuel.
  destruct (parse_options _ _ _ _ _) as [[options it']| | | |];
    try discriminate; [|done].
  cbn [mbind outcome_bind bind]. case_bool_decide; discriminate.
Qed.

End Termination.

(** ** The mutators keep a message well-formed *)

Section Built.

Lemma default_pdu_wf : wf_pdu default_pdu.
Proof.
  constructor; simpl; try done; try lia; try constructor;
    unfold is_u8, is_u16; lia.
Qed.

Lemma call_wf m self :
  valid_input m → wf_pdu self → wf_pdu (snd (call m self)).
Proof.
  intros Hm [Hver Htype Hcode Hmid Htok Htkl Hopts Hpay].
  destruct m as [type|code|mid|token|opt|payload]; simpl in Hm; simpl.
  - unfold set_type. case_bool_decide; [lia|]. by constructor.
  - by constructor.
  - by constructor.
  - destruct Hm as [Hm1 Hm2]. unfold set_token.
    case_bool_decide; [lia|]. by constructor.
  - constructor; try done. simpl. apply Forall_app. split; [done|].
    by constructor.
  - by constructor.
Qed.

Lemma build_wf calls : ∀ self,
  Forall valid_input calls → wf_pdu self → wf_pdu (build calls self).
Proof.
  induction calls as [|m calls IH]; intros self Hcalls Hself; [done|].
  apply Forall_cons_1 in Hcalls as [Hm Hcalls].
  simpl. apply IH; [done|]. by apply call_wf.
Qed.

Lemma representable_fit options : ∀ prev,
  representable prev options → options_fit prev options = true.
Proof.
  induction options as [|o options IH]; intros prev; [done|].
  intros (Hdelta & Hlen & Hrep). cbn [options_fit].
  rewrite (size32_small _ Hlen), (IH _ Hrep). unfold too_large.
  rewrite (proj2 (Z.ltb_ge 65804 _) Hdelta), (proj2 (Z.ltb_ge 65804 _) Hlen).
  reflexivity.
Qed.

(** A well-formed message with representable options goes through
    [to_bytes] and comes back from [from] unchanged. *)
Theorem from_to_bytes ndebug self :
  wf_pdu self → representable 0 (_options self) →
  to_bytes ndebug self = Ok (wire self) ∧ from (wire self) = Ok self.
Proof.
  intros Hwf Hrep. split.
  - rewrite to_bytes_wire, (representable_fit _ _ Hrep). by rewrite orb_true_r.
  - unfold wire. rewrite from_frame; [|done|done|].
    + f_equal. destruct self as [? ? ? ? ? ? payload]. unfold with_payload.
      cbn [_version _type _code _message_id _token _options _payload].
      f_equal. destruct Hwf as [_ _ _ _ _ _ _ Hpay]. simpl in Hpay.
      destruct payload as [|x payload]; [done|].
      cbn [payload_bytes tail]. by apply fmap_u8_wf.
    + destruct (_payload self) as [|x payload]; [by left|right].
      by eexists.
Qed.

End Built.

(** ** The properties of the specification *)

(** Well-formedness and representability of a message given in full. *)
Ltac solve_wf :=
  repeat match goal with
  | |- wf_pdu _ => constructor; simpl
  | |- wf_option _ => constructor; simpl
  | |- wf_bytes _ => unfold wf_bytes
  | |- Forall _ (_ :: _) => apply Forall_cons_2
  | |- Forall _ [] => constructor
  | |- is_u8 _ => unfold is_u8; lia
  | |- is_u16 _ => unfold is_u16; lia
  | |- is_u32 _ => unfold is_u32; lia
  | |- _ ∧ _ => split
  | |- True => exact I
  | |- _ => reflexivity || lia
  end.

Ltac solve_representable :=
  simpl; repeat split; vm_compute; discriminate.

(** *** The fixed header *)

Lemma parse_header_spec bytes :
  match parse_header bytes with
  | Ok h =>
    ¬ header_rejected bytes
    ∧ ∃ b0 b1 b2 b3 rest, bytes = b0 :: b1 :: b2 :: b3 :: rest
      ∧ h = mk_header (Z.shiftr b0 6) (Z.shiftr (Z.land b0 48) 4) (Z.land b0 15)
              b1 (u16 (Z.lor (Z.shiftl b2 8) b3))
      ∧ Z.shiftr b0 6 = 1 ∧ Z.land b0 15 <= 8
  | Throw e => malformed_header e ∧ header_rejected bytes
  | _ => False
  end.
Proof.
  unfold parse_header, header_rejected, malformed_header.
  case_bool_decide as Hlen; [auto|].
  destruct bytes as [|b0 [|b1 [|b2 [|b3 rest]]]]; try (simpl in Hlen; lia).
  cbn [deref lookup list_lookup mbind outcome_bind bind].
  case_bool_decide as Hver.
  { split; [auto|]. right. exists b0. auto. }
  case_bool_decide as Htkl.
  { split; [auto|]. right. exists b0. auto. }
  split.
  - intros [Hshort | (b & Hb & Hor)]; [simpl in Hshort; lia|].
    injection Hb as <-. destruct Hor; [done | lia].
  - exists b0, b1, b2, b3, rest. repeat split; auto; lia.
Qed.

Lemma deref_throw bytes it e : deref bytes it ≠ Throw e.
Proof. unfold deref. by destruct (bytes !! it). Qed.

Lemma parse_value_throw bytes nibble it e :
  parse_value bytes nibble it = Throw e → e = ReservedLengthField.
Proof.
  unfold parse_value.
  destruct (nibble =? 13).
  { destruct (deref bytes (S it)) as [b|e0| | |] eqn:Hd;
      cbn [mbind outcome_bind bind]; try discriminate.
    by apply deref_throw in Hd. }
  destruct (nibble =? 14).
  { destruct (deref bytes (S it)) as [hi|e0| | |] eqn:Hhi;
      cbn [mbind outcome_bind bind]; try discriminate;
      [|by apply deref_throw in Hhi].
    destruct (deref bytes (S (S it))) as [lo|e0| | |] eqn:Hlo;
      cbn [mbind outcome_bind bind]; try discriminate.
    by apply deref_throw in Hlo. }
  destruct (nibble =? 15); [|done]. by intros [= <-].
Qed.

(** The option loop throws at its two [throw] statements only. *)
Lemma parse_options_throw fuel : ∀ bytes it num acc e,
  parse_options fuel bytes it num acc = Throw e →
  e = ReservedLengthField ∨ e = TruncatedOption.
Proof.
  induction fuel as [|fuel IH]; intros bytes it num acc e;
    cbn [parse_options];
    destruct (bytes !! it) as [d|]; try discriminate;
    destruct (d =? 255); try discriminate.
  destruct (parse_value bytes (Z.shiftr d 4) it) as [[delta it1]|e1| | |] eqn:Hp1;
    try discriminate; cbn [mbind outcome_bind bind]; cycle 1.
  { intros [= <-]. left. by eapply parse_value_throw. }
  destruct (parse_value bytes (Z.land d 15) it1) as [[len it2]|e2| | |] eqn:Hp2;
    try discriminate; cbn [mbind outcome_bind bind]; cycle 1.
  { intros [= <-]. left. by eapply parse_value_throw. }
  case_bool_decide.
  - intros [= <-]. by right.
  - apply IH.
Qed.

(** C5. [from] fails on one of the header checks if and only if the buffer
    has fewer than 4 bytes, or the top two bits of byte 0 are not 1, or the
    low four bits of byte 0 are greater than 8.  When none of these holds
    the header is decoded: version and type from the top bits of byte 0,
    the token length from its low four bits, the code from byte 1 and the
    message id from bytes 2 and 3, big-endian. *)
Theorem C5_header_decoding (bytes : list Z) :
  ((∃ e, from bytes = Throw e ∧ malformed_header e) ↔ header_rejected bytes)
  ∧ (¬ header_rejected bytes →
     ∃ b0 b1 b2 b3 rest, bytes = b0 :: b1 :: b2 :: b3 :: rest
       ∧ parse_header bytes
         = Ok {| h_version := Z.shiftr b0 6;
                 h_type := Z.land (Z.shiftr b0 4) 3;
                 h_token_length := Z.land b0 15;
                 h_code := b1;
                 h_message_id := u16 (Z.lor (Z.shiftl b2 8) b3) |}
       ∧ Z.shiftr b0 6 = 1
       ∧ (is_u8 b2 → is_u8 b3 →
          u16 (Z.lor (Z.shiftl b2 8) b3) = b2 * 256 + b3)).
Proof.
  pose proof (parse_header_spec bytes) as Hspec.
  split; [split|].
  - intros (e & Hfrom & He). unfold from in Hfrom.
    destruct (parse_header bytes) as [h|e'| | |]; try done.
    + cbn [mbind outcome_bind bind] in Hfrom. exfalso.
      case_bool_decide.
      { injection Hfrom as <-. destruct He as [?|[?|?]]; discriminate. }
      case_bool_decide; [discriminate|].
      destruct (parse_options _ _ _ _ _) as [[options it']|e''| | |] eqn:Hloop;
        try discriminate.
      * cbn [mbind outcome_bind bind] in Hfrom. case_bool_decide; discriminate.
      * cbn [mbind outcome_bind bind] in Hfrom. injection Hfrom as ->.
        apply parse_options_throw in Hloop.
        destruct Hloop as [-> | ->]; destruct He as [?|[?|?]]; discriminate.
    + tauto.
  - intros Hrej. unfold from.
    destruct (parse_header bytes) as [h|e| | |]; try done.
    + tauto.
    + exists e. tauto.
  - intros Hok.
    destruct (parse_header bytes) as [h|e| | |]; try done; [|tauto].
    destruct Hspec as (_ & b0 & b1 & b2 & b3 & rest & -> & -> & Hver & Htkl).
    exists b0, b1, b2, b3, rest. repeat split; auto.
    + do 2 f_equal.
      rewrite Z.shiftr_land. change (Z.shiftr 48 4) with 3. reflexivity.
    + intros H2 H3. destruct (word_join b2 b3 H2 H3) as (Hmid & _).
      rewrite u16_small by done. by apply lor_shiftl_8.
Qed.

(** The law of C5 at the header of the repository's tests. *)
Lemma C5_header_decoding_witness :
  ¬ header_rejected [104; 2; 1; 0; 1; 2; 3; 4; 5; 6; 7; 8]
  ∧ parse_header [104; 2; 1; 0; 1; 2; 3; 4; 5; 6; 7; 8]
    = Ok {| h_version := 1; h_type := 2; h_token_length := 8;
            h_code := 2; h_message_id := 256 |}.
Proof.
  assert (Hok : ¬ header_rejected [104; 2; 1; 0; 1; 2; 3; 4; 5; 6; 7; 8]).
  { intros [Hshort | (b & Hb & Hor)]; [simpl in Hshort; lia|].
    injection Hb as <-. destruct Hor as [Hv | Ht];
      [by apply Hv | vm_compute in Ht; discriminate]. }
  split; [exact Hok|].
  destruct (proj2 (C5_header_decoding [104; 2; 1; 0; 1; 2; 3; 4; 5; 6; 7; 8]) Hok)
    as (b0 & b1 & b2 & b3 & rest & [= <- <- <- <- <-] & Hparse & _).
  exact Hparse.
Defined.

(** *** The extension scheme *)

Lemma boundary_pdu_roundtrip ndebug v :
  0 <= v <= 65804 →
  to_bytes ndebug (boundary_pdu v) = Ok (wire (boundary_pdu v))
  ∧ from (wire (boundary_pdu v)) = Ok (boundary_pdu v).
Proof.
  intros Hv. apply from_to_bytes.
  - apply build_wf; [|apply default_pdu_wf].
    apply Forall_cons_2; [|constructor].
    constructor; cbn [number value].
    + unfold is_u32. lia.
    + unfold wf_bytes. apply Forall_forall. intros x Hx.
      apply elem_of_replicate in Hx as [-> _]. unfold is_u8. lia.
  - simpl. rewrite length_replicate, Z.sub_0_r, u32_small by (unfold is_u32; lia).
    lia.
Qed.

(** C7. A nibble of 0 to 12 is the value itself, 13 stands for 13 plus the
    next byte and 14 for 269 plus the next two bytes, big-endian;
    [get_nibble] and [encode_val] write, for every value from 0 to 65804,
    the nibble and the extension bytes [parse_value] resolves to it.  The values
    12, 13, 268 and 269 take 0, 1, 1 and 2 extension bytes, in both
    directions, and a message whose option has such a delta and such a
    length comes back unchanged from [to_bytes] followed by [from]. *)
Theorem C7_extension_scheme :
  (∀ bytes it n, 0 <= n <= 12 → parse_value bytes n it = Ok (n, it))
  ∧ (∀ (bytes : list Z) it b, bytes !! S it = Some b →
       parse_value bytes 13 it = Ok (13 + b, S it))
  ∧ (∀ (bytes : list Z) it hi lo,
       bytes !! S it = Some hi → bytes !! S (S it) = Some lo →
       is_u8 hi → is_u8 lo →
       parse_value bytes 14 it = Ok (269 + (hi * 256 + lo), S (S it)))
  ∧ (∀ val pre post it, 0 <= val <= 65804 → length pre = S it →
       parse_value (pre ++ ext_bytes val ++ post) (get_nibble val) it
       = Ok (val, (it + get_size val)%nat))
  ∧ (∀ val pre post it, 0 <= val <= 65804 → length pre = S it →
       (get_size val ≤ length post)%nat →
       ∃ post', encode_val false (get_nibble val) val (pre ++ post) it
                = Ok ((pre ++ ext_bytes val) ++ post', (it + get_size val)%nat)
                ∧ length (ext_bytes val) = get_size val)
  ∧ (get_nibble <$> [12; 13; 268; 269]) = [12; 13; 13; 14]
  ∧ (get_size <$> [12; 13; 268; 269]) = [0; 1; 1; 2]%nat
  ∧ Forall (λ v, ∃ bytes,
              to_bytes false (boundary_pdu v) = Ok bytes
              ∧ from bytes = Ok (boundary_pdu v))
           [12; 13; 268; 269].
Proof.
  split; [|split; [|split; [|split; [|split; [|split; [|split]]]]]].
  - intros bytes it n Hn. unfold parse_value.
    by rewrite (proj2 (Z.eqb_neq n 13)), (proj2 (Z.eqb_neq n 14)),
      (proj2 (Z.eqb_neq n 15)) by lia.
  - intros bytes it b Hb. unfold parse_value, deref. simpl. by rewrite Hb.
  - intros bytes it hi lo Hhi Hlo Hrhi Hrlo. unfold parse_value, deref. simpl.
    rewrite Hhi, Hlo. cbn [mbind outcome_bind bind].
    by rewrite lor_shiftl_8.
  - intros val pre post it Hval Hpre. rewrite get_size_ext_bytes.
    by apply parse_value_ext with pre post.
  - intros val pre post it Hval Hpre Hpost. rewrite get_size_ext_bytes in *.
    pose proof (encode_val_at false val pre post it) as Henc.
    assert (Hfit : too_large val = false) by (apply Z.ltb_ge; lia).
    rewrite Hfit in Henc. simpl in Henc.
    destruct Henc as (post' & _ & Henc); [unfold is_u32; lia | done | done |].
    by exists post'.
  - reflexivity.
  - reflexivity.
  - repeat (apply Forall_cons_2;
            [eexists; apply (boundary_pdu_roundtrip false); lia|]).
    constructor.
Qed.

Lemma C7_extension_scheme_witness :
  0 <= 268 <= 65804 ∧ length [209] = 1%nat
  ∧ parse_value ([209] ++ ext_bytes 268 ++ [7]) (get_nibble 268) 0
    = Ok (268, (0 + get_size 268)%nat).
Proof.
  split; [lia|]. split; [reflexivity|].
  apply (proj1 (proj2 (proj2 (proj2 C7_extension_scheme)))); [lia | reflexivity].
Defined.

(** *** The end of the option sequence *)

(** A buffer [from] accepts and finds no payload in has one of two forms:
    it ends with its last option entry, or with the separator behind it. *)
Lemma absent_payload_forms bytes self :
  wf_bytes bytes → from bytes = Ok self → _payload self = [] →
  bytes = frame self ∨ bytes = frame self ++ [255].
Proof.
  intros Hwf Hfrom Hpl.
  destruct (from_inv bytes self Hwf Hfrom) as (_ & _ & post & -> & Hpost).
  destruct Hpost as [[-> _] | ->].
  - left. by rewrite app_nil_r.
  - right. by rewrite Hpl.
Qed.

(** C8. A buffer that ends right after its last option entry, and the same
    buffer followed by the separator alone, both decode, to the same
    message, without payload. *)
Theorem C8_absent_payload (self : pdu) :
  wf_pdu self → representable 0 (_options self) →
  from (frame self) = Ok (with_payload self [])
  ∧ from (frame self ++ [255]) = Ok (with_payload self []).
Proof.
  intros Hwf Hrep. split.
  - rewrite <- (app_nil_r (frame self)).
    apply (from_frame self [] Hwf Hrep). by left.
  - apply (from_frame self [255] Hwf Hrep). right. by eexists.
Qed.

Lemma C8_absent_payload_witness :
  from (frame three_options) = Ok (with_payload three_options [])
  ∧ from (frame three_options ++ [255]) = Ok (with_payload three_options []).
Proof.
  apply (C8_absent_payload three_options).
  - solve_wf.
  - solve_representable.
Defined.

(** C9. Whatever bytes the extensions and the values of the entries hold,
    0xFF included, the loop goes over all of them and stops on the first
    0xFF that stands where a descriptor would; what follows that byte is
    the payload. *)
Theorem C9_separator_at_entry_boundary (self : pdu) (payload : list Z) :
  wf_pdu self → representable 0 (_options self) →
  (∀ fuel pre acc, (length (_options self) ≤ fuel)%nat →
     parse_options fuel (pre ++ options_bytes 0 (_options self) ++ 255 :: payload)
       (length pre) 0 acc
     = Ok (acc ++ _options self,
           (length pre + length (options_bytes 0 (_options self)))%nat))
  ∧ from (frame self ++ 255 :: payload) = Ok (with_payload self payload).
Proof.
  intros Hwf Hrep. split.
  - intros fuel pre acc Hfuel.
    apply (parse_options_frame (_options self) fuel _ pre (255 :: payload) 0 acc);
      [by destruct Hwf | done | unfold is_u32; lia | right; by eexists
      | done | done].
  - apply (from_frame self (255 :: payload) Hwf Hrep). right. by eexists.
Qed.

Lemma C9_separator_at_entry_boundary_witness :
  frame all_ff = [96; 2; 1; 0; 211; 255; 255; 255; 255; 227; 255; 255; 255; 255; 255]
  ∧ from (frame all_ff ++ 255 :: [255; 66]) = Ok (with_payload all_ff [255; 66]).
Proof.
  split; [reflexivity|].
  apply (C9_separator_at_entry_boundary all_ff [255; 66]).
  - solve_wf.
  - solve_representable.
Defined.

(** *** The mutators that reject their argument *)

(** C10. [set_type] with a type above 3 and [set_token] with more than 8
    bytes throw, and the object is what it was before the call. *)
Theorem C10_failing_mutators_atomic (self : pdu) :
  (∀ type, type > 3 → set_type type self = (Throw InvalidType, self))
  ∧ (∀ token, (8 < length token)%nat →
       set_token token self = (Throw TokenTooLong, self)).
Proof.
  split.
  - intros type Htype. unfold set_type. by rewrite bool_decide_eq_true_2.
  - intros token Htoken. unfold set_token. by rewrite bool_decide_eq_true_2.
Qed.

Lemma C10_failing_mutators_atomic_witness :
  set_type 4 three_options = (Throw InvalidType, three_options)
  ∧ set_token [1; 2; 3; 4; 5; 6; 7; 8; 9] three_options
    = (Throw TokenTooLong, three_options).
Proof.
  split.
  - apply (proj1 (C10_failing_mutators_atomic three_options)). lia.
  - apply (proj2 (C10_failing_mutators_atomic three_options)). simpl. lia.
Defined.

(** *** Round trips *)

(** The extension scheme has no redundant form: this holds of every
    buffer. *)
Lemma entries_minimal_always fuel : ∀ bytes it,
  wf_bytes bytes → entries_minimal fuel bytes it = true.
Proof.
  induction fuel as [|fuel IH]; intros bytes it Hwf; cbn [entries_minimal];
    destruct (bytes !! it) as [d|] eqn:Hd; try done;
    destruct (d =? 255); try done.
  pose proof (Forall_lookup_1 _ _ _ _ Hwf Hd) as Hdrange.
  destruct (descriptor_split d Hdrange) as (_ & Hhi & Hlo & _).
  destruct (parse_value bytes (Z.shiftr d 4) it) as [[delta it1]| | | |] eqn:Hp1;
    try done.
  destruct (parse_value bytes (Z.land d 15) it1) as [[len it2]| | | |] eqn:Hp2;
    try done.
  apply parse_value_inv in Hp1 as (_ & -> & _); [|done..].
  apply parse_value_inv in Hp2 as (_ & -> & _); [|done..].
  by rewrite !Z.eqb_refl, IH.
Qed.

Lemma no_redundant_extension_always bytes :
  wf_bytes bytes → no_redundant_extension bytes = true.
Proof.
  intros Hwf. unfold no_redundant_extension.
  destruct (parse_header bytes); try done. by apply entries_minimal_always.
Qed.

(** What [to_bytes] makes of a message [from] returned: the buffer, or the
    buffer without the separator it ends with when no payload follows. *)
Lemma to_bytes_from ndebug bytes self :
  wf_bytes bytes → from bytes = Ok self →
  ∃ encoded, to_bytes ndebug self = Ok encoded ∧ from encoded = Ok self
    ∧ (bytes = encoded ∨ (_payload self = [] ∧ bytes = encoded ++ [255])).
Proof.
  intros Hwf Hfrom.
  destruct (from_inv bytes self Hwf Hfrom) as (Hself & Hrep & post & -> & Hpost).
  destruct (from_to_bytes ndebug self Hself Hrep) as [Hto Hback].
  exists (wire self). split; [done|]. split; [done|].
  unfold wire.
  destruct Hpost as [[-> Hpl] | ->].
  - left. by rewrite Hpl.
  - destruct (_payload self) as [|x payload] eqn:Hpl.
    + right. split; [done|]. simpl. by rewrite app_nil_r.
    + left. cbn [payload_bytes]. rewrite fmap_u8_wf; [done|].
      destruct Hself as [_ _ _ _ _ _ _ Hpay]. by rewrite Hpl in Hpay.
Qed.

(** The one form [from] accepts that is not minimal: the separator with no
    payload behind it decodes like the buffer without it. *)
Example separator_without_payload :
  from [64; 0; 0; 0; 255] = Ok default_pdu
  ∧ from [64; 0; 0; 0] = Ok default_pdu
  ∧ to_bytes false default_pdu = Ok [64; 0; 0; 0]
  ∧ ¬ minimal_valid_encoding [64; 0; 0; 0; 255].
Proof.
  repeat split; try reflexivity.
  intros (_ & _ & Hmin). specialize (Hmin [64; 0; 0; 0]).
  assert (Hwf : wf_bytes [64; 0; 0; 0]) by solve_wf.
  specialize (Hmin Hwf eq_refl). simpl in Hmin. lia.
Qed.

(** C1. For a buffer that is a minimal valid encoding, one that [from]
    accepts and that no shorter buffer decodes like (no extension byte is
    ever redundant; the one redundant byte [from] accepts is a separator
    with no payload behind it), [to_bytes] of the message [from] returns
    gives the buffer back, byte for byte. *)
Theorem C1_roundtrip_decode_encode (ndebug : bool) (bytes : list Z) (self : pdu) :
  minimal_valid_encoding bytes → from bytes = Ok self →
  to_bytes ndebug self = Ok bytes.
Proof.
  intros (Hwf & _ & Hmin) Hfrom.
  destruct (to_bytes_from ndebug bytes self Hwf Hfrom)
    as (encoded & Hto & Hback & [-> | [Hpl ->]]); [done|].
  exfalso.
  assert (Hwf' : wf_bytes encoded) by (by apply Forall_app in Hwf as [? _]).
  specialize (Hmin encoded Hwf'). rewrite Hfrom, Hback in Hmin.
  specialize (Hmin eq_refl). rewrite length_app in Hmin. simpl in Hmin. lia.
Qed.

Lemma C1_roundtrip_decode_encode_witness :
  minimal_valid_encoding test_pdu2 ∧ from test_pdu2 = Ok test_pdu2_decoded
  ∧ to_bytes false test_pdu2_decoded = Ok test_pdu2.
Proof.
  assert (Hwf : wf_bytes test_pdu2) by (unfold test_pdu2; solve_wf).
  assert (Hmin : minimal_valid_encoding test_pdu2).
  { split; [exact Hwf|]. split; [by exists test_pdu2_decoded|].
    intros bytes' Hwf' Hfrom'.
    change (from test_pdu2) with (Ok test_pdu2_decoded) in Hfrom'.
    destruct (from_inv bytes' _ Hwf' Hfrom') as (_ & _ & post & -> & Hpost).
    rewrite length_app.
    destruct Hpost as [[_ Hpl] | ->]; [discriminate Hpl|].
    simpl. lia. }
  split; [exact Hmin|]. split; [reflexivity|].
  apply (C1_roundtrip_decode_encode false test_pdu2 test_pdu2_decoded Hmin).
  reflexivity.
Defined.

(** Conversely, what [to_bytes] writes for a message [from] can return is a
    minimal valid encoding. *)
Lemma wire_minimal self :
  wf_pdu self → representable 0 (_options self) →
  minimal_valid_encoding (wire self).
Proof.
  intros Hself Hrep.
  destruct (from_to_bytes false self Hself Hrep) as [_ Hback].
  assert (Hwf : wf_bytes (wire self)).
  { destruct Hself as [_ _ _ _ Htok _ Hopts Hpay]. unfold wire, frame.
    repeat apply Forall_app_2.
    - unfold header_bytes. repeat constructor; apply u8_range.
    - by rewrite fmap_u8_wf.
    - clear Hrep. generalize 0. induction Hopts as [|o options Ho _ IH]; intros prev.
      + constructor.
      + cbn [options_bytes]. apply Forall_app_2; [|apply IH].
        unfold entry_bytes. constructor; [apply u8_range|].
        repeat apply Forall_app_2.
        * unfold ext_bytes. destruct (_ <? 13); [constructor|].
          destruct (_ <? 269); repeat constructor; apply u8_range.
        * unfold ext_bytes. destruct (_ <? 13); [constructor|].
          destruct (_ <? 269); repeat constructor; apply u8_range.
        * destruct Ho as [_ Hv]. by rewrite fmap_u8_wf.
    - destruct (_payload self) as [|x payload] eqn:Hpl; [constructor|].
      cbn [payload_bytes]. constructor; [unfold is_u8; lia|].
      by rewrite fmap_u8_wf. }
  split; [done|]. split; [by exists self|].
  intros bytes' Hwf' Hfrom'. rewrite Hback in Hfrom'.
  destruct (from_inv bytes' self Hwf' Hfrom') as (_ & _ & post & -> & Hpost).
  unfold wire. rewrite !length_app.
  destruct Hpost as [[-> Hpl] | ->].
  - rewrite Hpl. simpl. lia.
  - destruct (_payload self) as [|x payload] eqn:Hpl; simpl; [lia|].
    rewrite length_fmap. lia.
Qed.

(** The round trip of a message built by the mutators holds when the
    deltas, taken in the order of the calls, and the value lengths are ones
    the extension scheme can write. *)
Lemma roundtrip_in_call_order (ndebug : bool) (calls : list mutator) :
  Forall valid_input calls →
  representable 0 (_options (build calls default_pdu)) →
  ∃ bytes, to_bytes ndebug (build calls default_pdu) = Ok bytes
    ∧ from bytes = Ok (build calls default_pdu).
Proof.
  intros Hcalls Hrep. exists (wire (build calls default_pdu)).
  apply from_to_bytes; [|done].
  apply build_wf; [done | apply default_pdu_wf].
Qed.

Example roundtrip_ascending_calls :
  build ascending_calls default_pdu = test_pdu2_decoded
  ∧ ∃ bytes, to_bytes false (build ascending_calls default_pdu) = Ok bytes
      ∧ from bytes = Ok (build ascending_calls default_pdu).
Proof.
  split; [reflexivity|].
  apply (roundtrip_in_call_order false ascending_calls).
  - unfold ascending_calls.
    repeat (apply Forall_cons_2; [simpl; solve_wf|]). constructor.
  - solve_representable.
Qed.

(** C3. The round trip fails for a message whose options were added out of
    order.  The two calls of [out_of_order_calls] have valid arguments, and
    the options sorted by number, 1 and 5, have deltas and lengths the
    extension scheme can write.  [add_option] keeps the order of the calls,
    5 then 1, and [to_bytes] takes the second delta as 1 - 5 modulo 2^32:
    where assertions are compiled in it stops at the [assert] of
    [encode_val]; where they are not it writes the low 16 bits, and [from]
    reads the numbers 5 and 65537 back.  The revision with a
    [std::multimap] encodes and decodes the same calls. *)
Theorem C3_roundtrip_out_of_order :
  Forall valid_input out_of_order_calls
  ∧ _options (Multimap.build_multimap out_of_order_calls default_pdu)
    = [mk_option 1 []; mk_option 5 []]
  ∧ representable 0 [mk_option 1 []; mk_option 5 []]
  ∧ _options (build out_of_order_calls default_pdu)
    = [mk_option 5 []; mk_option 1 []]
  ∧ to_bytes false (build out_of_order_calls default_pdu) = Abort
  ∧ to_bytes true (build out_of_order_calls default_pdu)
    = Ok [64; 0; 0; 0; 80; 224; 254; 239]
  ∧ from [64; 0; 0; 0; 80; 224; 254; 239]
    = Ok {| _version := 1; _type := 0; _code := 0; _message_id := 0;
            _token := [];
            _options := [mk_option 5 []; mk_option 65537 []];
            _payload := [] |}
  ∧ (∀ ndebug bytes,
       to_bytes ndebug (build out_of_order_calls default_pdu) = Ok bytes →
       from bytes ≠ Ok (build out_of_order_calls default_pdu))
  ∧ ∃ bytes,
      Revision.to_bytes false
        (Multimap.build_multimap out_of_order_calls default_pdu) = Ok bytes
      ∧ Revision.from bytes
        = Ok (Multimap.build_multimap out_of_order_calls default_pdu).
Proof.
  split.
  { unfold out_of_order_calls.
    repeat (apply Forall_cons_2; [simpl; solve_wf|]). constructor. }
  split; [reflexivity|]. split; [solve_representable|].
  split; [reflexivity|]. split; [reflexivity|]. split; [reflexivity|].
  split; [reflexivity|]. split.
  - intros [|] bytes Hto Hfrom; vm_compute in Hto; [|discriminate].
    injection Hto as <-. vm_compute in Hfrom. discriminate.
  - exists [64; 0; 0; 0; 16; 64]. split; reflexivity.
Qed.

(** *** Values the extension scheme cannot write *)

Lemma options_fit_spec options : ∀ prev,
  options_fit prev options = true ↔ within_range prev options.
Proof.
  induction options as [|o options IH]; intros prev; [done|].
  cbn [options_fit within_range]. unfold too_large.
  rewrite !andb_true_iff, !negb_true_iff, !Z.ltb_ge, IH. tauto.
Qed.

(** C6, as the specification states it, fails: with a delta of 65805
    [to_bytes] returns no error value, it stops at its [assert]. *)
Lemma C6_counterexample :
  ¬ (∀ ndebug self, ¬ within_range 0 (_options self) →
       ∃ e, to_bytes ndebug self = Throw e).
Proof.
  intros Hclaim.
  destruct (Hclaim false delta_too_large) as [e He].
  - simpl. vm_compute. intros [H _]. by apply H.
  - vm_compute in He. discriminate.
Qed.

(** C6, amended. [to_bytes] has no error value to return.  When a delta or
    a value length is above 65804 the [assert] of [encode_val] fails, which
    stops the program where assertions are compiled in; when every delta
    and every length is at most 65804, [to_bytes] returns the encoding. *)
Theorem C6_encode_range (self : pdu) :
  (∀ ndebug e, to_bytes ndebug self ≠ Throw e)
  ∧ (¬ within_range 0 (_options self) → to_bytes false self = Abort)
  ∧ (within_range 0 (_options self) →
     ∀ ndebug, to_bytes ndebug self = Ok (wire self)).
Proof.
  split; [|split].
  - intros ndebug e. rewrite to_bytes_wire.
    by destruct (ndebug || options_fit 0 (_options self)).
  - intros Hnot. rewrite to_bytes_wire. simpl.
    destruct (options_fit 0 (_options self)) eqn:Hfit; [|done].
    by apply options_fit_spec in Hfit.
  - intros Hin ndebug. rewrite to_bytes_wire.
    apply options_fit_spec in Hin. by rewrite Hin, orb_true_r.
Qed.

Lemma C6_encode_range_witness :
  to_bytes false delta_too_large = Abort
  ∧ to_bytes false test_pdu2_decoded = Ok (wire test_pdu2_decoded).
Proof.
  split.
  - apply (proj1 (proj2 (C6_encode_range delta_too_large))).
    simpl. vm_compute. intros [H _]. by apply H.
  - apply (proj2 (proj2 (C6_encode_range test_pdu2_decoded))).
    simpl. repeat split; vm_compute; discriminate.
Defined.

(** *** The order of the options *)

(** [add_option] is [push_back]: the options stay in the order of the
    calls. *)
Lemma add_option_appends opt self :
  _options (snd (add_option opt self)) = _options self ++ [opt].
Proof. reflexivity. Qed.

Lemma build_options calls : ∀ self,
  _options (build calls self) = _options self ++ added_options calls.
Proof.
  induction calls as [|m calls IH]; intros self; simpl.
  - by rewrite app_nil_r.
  - rewrite IH. destruct m as [type|code|mid|token|opt|payload]; simpl; try done.
    + unfold set_type. by case_bool_decide.
    + unfold set_token. by case_bool_decide.
    + by rewrite <- app_assoc.
Qed.

(** C2, on the code.  Whatever the calls, the message holds the options in
    the order of the calls.  After the calls of the test they are not in
    ascending order; [to_bytes] then takes the first delta to be 66077,
    above what the scheme can write, and stops at its [assert]; without
    assertions it writes deltas that wrap around.  In neither case does it
    return the bytes the test expects. *)
Theorem C2_options_in_call_order :
  (∀ calls, _options (build calls default_pdu) = added_options calls)
  ∧ (number <$> _options (build any_order_calls default_pdu))
    = [66077; 5; 1; 2; 273]
  ∧ to_bytes false (build any_order_calls default_pdu) = Abort
  ∧ to_bytes true (build any_order_calls default_pdu)
    = Ok [96; 2; 1; 0; 227; 1; 16; 255; 255; 255; 227; 252; 219; 255; 255;
          255; 225; 254; 239; 255; 17; 255; 227; 0; 2; 255; 255; 255; 255;
          66; 66; 66; 66]
  ∧ ∀ ndebug, to_bytes ndebug (build any_order_calls default_pdu) ≠ Ok test_pdu2.
Proof.
  split; [intros calls; by rewrite build_options|].
  split; [reflexivity|]. split; [reflexivity|]. split; [reflexivity|].
  intros [|]; vm_compute; discriminate.
Qed.

(** [emplace] keeps the options in ascending order of number, an option
    going behind those of the same number. *)
Lemma emplace_sorted opt options :
  StronglySorted (λ a b, number a <= number b) options →
  StronglySorted (λ a b, number a <= number b) (Multimap.emplace opt options).
Proof.
  induction 1 as [|o options Hsorted IH Hall]; simpl.
  - repeat constructor.
  - destruct (Z.ltb_spec (number opt) (number o)) as [Hlt | Hge].
    + constructor; [by constructor|].
      constructor; [lia|].
      eapply Forall_impl; [exact Hall|]. simpl. intros b Hb. lia.
    + constructor; [done|].
      clear IH Hsorted. induction Hall as [|b options Hb Hall IH]; simpl.
      * by repeat constructor.
      * destruct (number opt <? number b); repeat constructor; try done; lia.
Qed.

Lemma emplace_stable opt options :
  Forall (λ o, number o <= number opt) options →
  Multimap.emplace opt options = options ++ [opt].
Proof.
  induction 1 as [|o options Ho Hall IH]; simpl; [done|].
  rewrite (proj2 (Z.ltb_ge (number opt) (number o))) by lia. by rewrite IH.
Qed.

(** Whatever the order of the calls, the revision holds the options in
    ascending order of number. *)
Lemma multimap_build_sorted calls : ∀ self,
  StronglySorted (λ a b, number a <= number b) (_options self) →
  StronglySorted (λ a b, number a <= number b)
    (_options (Multimap.build_multimap calls self)).
Proof.
  induction calls as [|m calls IH]; intros self Hsorted; simpl; [done|].
  apply IH. destruct m as [type|code|mid|token|opt|payload]; simpl; try done.
  - unfold set_type. by case_bool_decide.
  - unfold set_token. by case_bool_decide.
  - by apply emplace_sorted.
Qed.

(** With the options kept in ascending order the two loops of [to_bytes]
    write the bytes the test expects. *)
Lemma multimap_any_order_sorted :
  Multimap.build_multimap any_order_calls default_pdu = test_pdu2_decoded
  ∧ to_bytes false (Multimap.build_multimap any_order_calls default_pdu) = Ok test_pdu2.
Proof. split; reflexivity. Qed.

(** *** Truncated option entries *)

(** Reading an extension that the buffer does not hold. *)
Lemma parse_value_past_end (bytes : list Z) (it : nat) :
  ((length bytes ≤ S it)%nat → parse_value bytes 13 it = Undefined)
  ∧ ((length bytes ≤ S (S it))%nat → parse_value bytes 14 it = Undefined).
Proof.
  unfold parse_value, deref. simpl. split; intros Hend.
  - by rewrite (proj2 (lookup_ge_None bytes (S it))) by lia.
  - rewrite (proj2 (lookup_ge_None bytes (S (S it)))) by lia.
    by destruct (bytes !! S it).
Qed.

(** Where the extension is in the buffer, the entry fails by one of the two
    [throw] statements or not at all. *)
Lemma parse_value_in_bounds (bytes : list Z) (nibble : Z) (it : nat) :
  (S (S it) < length bytes)%nat →
  parse_value bytes nibble it ≠ Undefined.
Proof.
  intros Hin. unfold parse_value, deref.
  destruct (lookup_lt_is_Some_2 bytes (S it) ltac:(lia)) as [hi ->].
  destruct (lookup_lt_is_Some_2 bytes (S (S it)) ltac:(lia)) as [lo ->].
  destruct (nibble =? 13); [done|].
  destruct (nibble =? 14); [done|].
  by destruct (nibble =? 15).
Qed.

(** C4, on the code.  A value that stops short of its length and a nibble
    of 15 make [from] throw; an extension that stops short is not tested
    for: [parse_value] reads the byte behind the end of the buffer. *)
Theorem C4_truncated_extension_read_past_end :
  from [96; 2; 1; 0; 17] = Throw TruncatedOption
  ∧ from [96; 2; 1; 0; 240] = Throw ReservedLengthField
  ∧ from [96; 2; 1; 0; 15] = Throw ReservedLengthField
  ∧ from [96; 2; 1; 0; 208] = Undefined
  ∧ from [96; 2; 1; 0; 224; 1] = Undefined
  ∧ from [96; 2; 1; 0; 13] = Undefined
  ∧ from [96; 2; 1; 0; 14; 1] = Undefined.
Proof. repeat split; reflexivity. Qed.

(** * Part III: further properties of the code *)

(** ** The option loop, entry by entry *)

Section Loop.

(** The loop does the same with any number of iterations allowed that is
    at least the number of bytes left. *)
Lemma parse_options_fuel_irrel f1 : ∀ f2 bytes it num acc,
  (length bytes - it ≤ f1)%nat → (length bytes - it ≤ f2)%nat →
  parse_options f1 bytes it num acc = parse_options f2 bytes it num acc.
Proof.
  induction f1 as [|f1 IH]; intros f2 bytes it num acc H1 H2;
    destruct f2 as [|f2]; cbn [parse_options];
    destruct (bytes !! it) as [d|] eqn:Hd; try done;
    destruct (d =? 255); try done;
    apply lookup_lt_Some in Hd; try lia.
  destruct (parse_value bytes (Z.shiftr d 4) it) as [[delta it1]| | | |] eqn:Hp1;
    try done.
  cbn [mbind outcome_bind bind].
  destruct (parse_value bytes (Z.land d 15) it1) as [[len it2]| | | |] eqn:Hp2;
    try done.
  cbn [mbind outcome_bind bind].
  apply parse_value_advances in Hp1, Hp2.
  case_bool_decide; [done|]. apply IH; lia.
Qed.

(** One iteration on a descriptor and the extension bytes of a delta and a
    length, followed by anything. *)
Lemma parse_options_head fuel bytes pre rest prev acc delta len :
  0 <= delta <= 65804 → 0 <= len <= 65804 →
  bytes = pre ++ u8 (Z.lor (Z.shiftl (get_nibble delta) 4) (get_nibble len))
               :: ext_bytes delta ++ ext_bytes len ++ rest →
  parse_options (S fuel) bytes (length pre) prev acc
  = if bool_decide (length rest < Z.to_nat len)%nat then Throw TruncatedOption
    else parse_options fuel bytes
           (length pre + 1 + length (ext_bytes delta) + length (ext_bytes len)
            + Z.to_nat len)
           (u32 (prev + delta))
           (acc ++ [mk_option (u32 (prev + delta)) (take (Z.to_nat len) rest)]).
Proof.
  intros Hdelta Hlen Hb0.
  set (d := u8 (Z.lor (Z.shiftl (get_nibble delta) 4) (get_nibble len))) in *.
  destruct (descriptor_encoded delta len ltac:(lia) ltac:(lia)) as (Hd & Hhi & Hlo).
  fold d in Hd, Hhi, Hlo.
  assert (Hb1 : bytes = (pre ++ [d]) ++ ext_bytes delta ++ (ext_bytes len ++ rest)).
  { rewrite Hb0. by rewrite <- app_assoc. }
  assert (Hb2 : bytes = ((pre ++ [d]) ++ ext_bytes delta) ++ ext_bytes len ++ rest).
  { rewrite Hb1. by rewrite <- !app_assoc. }
  assert (Hb3 : bytes = (((pre ++ [d]) ++ ext_bytes delta) ++ ext_bytes len) ++ rest).
  { rewrite Hb2. by rewrite <- !app_assoc. }
  cbn [parse_options].
  assert (bytes !! length pre = Some d) as ->
    by (rewrite Hb0; apply list_lookup_middle; done).
  rewrite (proj2 (Z.eqb_neq d 255)) by done.
  rewrite Hhi, Hlo.
  rewrite (parse_value_ext bytes delta (pre ++ [d]) _ (length pre) Hdelta Hb1)
    by (rewrite length_app; simpl; lia).
  cbn [mbind outcome_bind bind].
  rewrite (parse_value_ext bytes len ((pre ++ [d]) ++ ext_bytes delta) _
             (length pre + length (ext_bytes delta)) Hlen Hb2)
    by (rewrite !length_app; simpl; lia).
  cbn [mbind outcome_bind bind].
  set (it := S (length pre + length (ext_bytes delta) + length (ext_bytes len))).
  assert (Hit : it = length (((pre ++ [d]) ++ ext_bytes delta) ++ ext_bytes len)).
  { subst it. rewrite !length_app. simpl. lia. }
  assert (Hlb : length bytes = (it + length rest)%nat).
  { rewrite Hb3 at 1. rewrite length_app. lia. }
  repeat case_bool_decide; try lia; [done|].
  assert (range bytes it (it + Z.to_nat len) = take (Z.to_nat len) rest) as ->.
  { unfold range. rewrite Hb3 at 1. rewrite Hit, drop_app_length.
    f_equal. lia. }
  f_equal. subst it. lia.
Qed.

(** One iteration on the entry [to_bytes] writes for an option. *)
Lemma parse_options_entry fuel bytes pre post prev acc o :
  wf_option o → u32 (number o - prev) <= 65804 →
  Z.of_nat (length (value o)) <= 65804 →
  bytes = pre ++ entry_bytes prev o ++ post →
  parse_options (S fuel) bytes (length pre) prev acc
  = parse_options fuel bytes (length pre + length (entry_bytes prev o))
      (number o) (acc ++ [o]).
Proof.
  intros [Hnum Hval] Hdelta Hlen Hbytes.
  unfold entry_bytes in Hbytes.
  rewrite (fmap_u8_wf _ Hval), (size32_small _ Hlen) in Hbytes.
  pose proof (u32_range (number o - prev)) as Hd0. unfold is_u32 in Hd0.
  rewrite (parse_options_head fuel bytes pre (value o ++ post) prev acc
             (u32 (number o - prev)) (Z.of_nat (length (value o))));
    [|lia|lia|].
  - rewrite Nat2Z.id, take_app_length, u32_delta by done.
    rewrite bool_decide_eq_false_2 by (rewrite length_app; lia).
    rewrite length_entry_bytes, (size32_small _ Hlen).
    destruct o as [n v]. simpl. f_equal. lia.
  - rewrite Hbytes. simpl. by rewrite <- !app_assoc.
Qed.

(** The iterations on the entries of a sequence of options, followed by
    anything. *)
Lemma parse_options_skip options : ∀ fuel bytes pre post prev acc,
  Forall wf_option options → representable prev options →
  bytes = pre ++ options_bytes prev options ++ post →
  parse_options (length options + fuel) bytes (length pre) prev acc
  = parse_options fuel bytes (length pre + length (options_bytes prev options))
      (last_number prev options) (acc ++ options).
Proof.
  induction options as [|o options IH];
    intros fuel bytes pre post prev acc Hwf Hrep Hbytes.
  - simpl. by rewrite Nat.add_0_r, app_nil_r.
  - apply Forall_cons_1 in Hwf as [Ho Hwf].
    destruct Hrep as (Hdelta & Hlen & Hrep).
    cbn [options_bytes length last_number Nat.add] in *.
    rewrite (parse_options_entry _ bytes pre (options_bytes (number o) options ++ post)
               prev acc o Ho Hdelta Hlen)
      by (rewrite Hbytes; by rewrite <- app_assoc).
    replace (length pre + length (entry_bytes prev o))%nat
      with (length (pre ++ entry_bytes prev o)) by (by rewrite length_app).
    rewrite (IH fuel bytes (pre ++ entry_bytes prev o) post (number o)
               (acc ++ [o]) Hwf Hrep)
      by (rewrite Hbytes; by rewrite <- !app_assoc).
    rewrite !length_app, <- app_assoc. simpl. f_equal. lia.
Qed.

(** [from] on a frame followed by anything: the header, the token and the
    options of the frame are read, and the loop goes on behind them. *)
Lemma from_frame_loop self post :
  wf_pdu self → representable 0 (_options self) → post ≠ [] →
  from (frame self ++ post)
  = match parse_options (length post) (frame self ++ post) (length (frame self))
            (last_number 0 (_options self)) (_options self) with
    | Ok (options, it) =>
      if bool_decide (length (frame self ++ post) ≤ it)%nat then
        Ok {| _version := _version self; _type := _type self;
              _code := _code self; _message_id := _message_id self;
              _token := _token self; _options := options; _payload := [] |}
      else
        Ok {| _version := _version self; _type := _type self;
              _code := _code self; _message_id := _message_id self;
              _token := _token self; _options := options;
              _payload := range (frame self ++ post) (S it)
                            (length (frame self ++ post)) |}
    | Throw e => Throw e
    | Abort => Abort
    | Undefined => Undefined
    | OutOfFuel => OutOfFuel
    end.
Proof.
  intros [Hver Htype Hcode Hmid Htok Htkl Hopts Hpay] Hrep Hpost.
  destruct self as [ver type code mid token options payload].
  cbn [_version _type _code _message_id _token _options _payload] in *.
  subst ver.
  set (self := mk_pdu 1 type code mid token options payload).
  destruct (header_byte_encoded type (Z.of_nat (length token)) Htype ltac:(lia))
    as (Hh1 & Hh2 & Hh3).
  pose proof (message_id_encoded mid Hmid) as Hm.
  set (bytes := frame self ++ post).
  assert (Hb : bytes = header_bytes self ++ token ++ options_bytes 0 options ++ post).
  { subst bytes. unfold frame. cbn [_token _options self].
    rewrite (fmap_u8_wf _ Htok). by rewrite <- !app_assoc. }
  assert (Hlf : length (frame self)
                = (4 + length token + length (options_bytes 0 options))%nat).
  { unfold frame. cbn [_token _options self].
    rewrite !length_app, length_fmap. simpl. lia. }
  assert (Hlen : length bytes = (length (frame self) + length post)%nat).
  { subst bytes. by rewrite length_app. }
  assert (Hpl : (0 < length post)%nat).
  { destruct post; [done | simpl; lia]. }
  unfold from, parse_header.
  rewrite bool_decide_eq_false_2 by lia.
  assert (deref bytes 0 = Ok (u8 (Z.lor (Z.lor (Z.shiftl 1 6) (Z.shiftl type 4))
                                       (Z.of_nat (length token))))) as ->
    by (rewrite Hb; reflexivity).
  assert (deref bytes 1 = Ok (u8 code)) as -> by (rewrite Hb; reflexivity).
  assert (deref bytes 2 = Ok (u8 (Z.shiftr mid 8))) as ->
    by (rewrite Hb; reflexivity).
  assert (deref bytes 3 = Ok (u8 mid)) as -> by (rewrite Hb; reflexivity).
  cbn [mbind outcome_bind bind].
  rewrite Hh1, Hh2, Hh3, Hm, (u8_small code) by done.
  rewrite bool_decide_eq_false_2 by lia.
  rewrite bool_decide_eq_false_2 by lia.
  cbn [mbind outcome_bind bind h_version h_type h_token_length h_code h_message_id].
  rewrite Nat2Z.id.
  rewrite bool_decide_eq_false_2 by lia.
  assert (range bytes 4 (4 + length token) = token) as ->.
  { rewrite Hb. apply (range_middle (header_bytes _)). reflexivity. }
  cbn [_version _type _code _message_id _token _options _payload].
  rewrite bool_decide_eq_false_2 by lia.
  pose proof (length_options_bytes options 0) as Hlo.
  replace (parse_options (length bytes) bytes (4 + length token) 0 [])
    with (parse_options (length options + (length bytes - length options)) bytes
            (4 + length token) 0 []) by (f_equal; lia).
  pose proof (parse_options_skip options (length bytes - length options) bytes
                (header_bytes self ++ token) post 0 [] Hopts Hrep) as Hskip.
  rewrite length_app in Hskip.
  change (length (header_bytes self)) with 4%nat in Hskip.
  rewrite Hskip by (rewrite Hb; by rewrite <- app_assoc).
  rewrite (parse_options_fuel_irrel (length bytes - length options) (length post))
    by lia.
  rewrite Hlf. cbn [app self _options _version _type _code _message_id _token].
  destruct (parse_options _ _ _ _ _) as [[options' it']| | | |]; try done.
Qed.

End Loop.

(** ** What [from] returns *)

(** X1. The loop of [from] ends within as many iterations as bytes are left
    to read: allowing more never changes what it returns, and [from]
    itself always comes back, with a message, an exception or a read
    behind the buffer. *)
Theorem X1_loop_terminates (fuel : nat) (bytes : list Z) (it : nat)
    (num : Z) (acc : list coapp_option) :
  (length bytes - it ≤ fuel)%nat →
  parse_options fuel bytes it num acc ≠ OutOfFuel
  ∧ parse_options fuel bytes it num acc
    = parse_options (length bytes - it) bytes it num acc
  ∧ from bytes ≠ OutOfFuel.
Proof.
  intros Hfuel. split; [|split].
  - by apply parse_options_fuel.
  - by apply parse_options_fuel_irrel.
  - apply from_total.
Qed.

Lemma X1_loop_terminates_witness :
  parse_options 100 test_pdu2 4 0 [] ≠ OutOfFuel
  ∧ parse_options 100 test_pdu2 4 0 []
    = parse_options (length test_pdu2 - 4) test_pdu2 4 0 []
  ∧ from test_pdu2 ≠ OutOfFuel.
Proof.
  apply (X1_loop_terminates 100 test_pdu2 4 0 []). unfold test_pdu2. simpl. lia.
Defined.

(** X2. A message [from] returns keeps the invariant of the class and the
    bounds of the wire format: version 1, a type of two bits, at most 8
    token bytes, fields and bytes in the range of their types, and for
    every option a delta from the one before and a value length of at most
    65804. *)
Theorem X2_from_invariant (bytes : list Z) (self : pdu) :
  wf_bytes bytes → from bytes = Ok self →
  version self = 1 ∧ 0 <= type self <= 3 ∧ (length (token self) ≤ 8)%nat
  ∧ is_u8 (code self) ∧ is_u16 (message_id self)
  ∧ wf_bytes (token self) ∧ wf_bytes (payload_raw self)
  ∧ Forall wf_option (options self)
  ∧ representable 0 (options self).
Proof.
  intros Hwf Hfrom.
  destruct (from_inv bytes self Hwf Hfrom)
    as ([Hver Htype Hcode Hmid Htok Htkl Hopts Hpay] & Hrep & _).
  unfold version, type, code, message_id, token, options, payload_raw.
  split_and!; done || lia.
Qed.

Lemma X2_from_invariant_witness :
  version test_pdu2_decoded = 1 ∧ 0 <= type test_pdu2_decoded <= 3
  ∧ (length (token test_pdu2_decoded) ≤ 8)%nat
  ∧ is_u8 (code test_pdu2_decoded) ∧ is_u16 (message_id test_pdu2_decoded)
  ∧ wf_bytes (token test_pdu2_decoded) ∧ wf_bytes (payload_raw test_pdu2_decoded)
  ∧ Forall wf_option (options test_pdu2_decoded)
  ∧ representable 0 (options test_pdu2_decoded).
Proof.
  apply (X2_from_invariant test_pdu2 test_pdu2_decoded).
  - unfold test_pdu2. solve_wf.
  - reflexivity.
Defined.

(** X3. The fields of a message [from] returns are read at fixed places of
    the buffer: version and type in the top four bits of byte 0, the code
    in byte 1, the message id in bytes 2 and 3, high byte first, and the
    token in the bytes from 4 on, as many as the low four bits of byte 0
    say. *)
Theorem X3_from_fields (bytes : list Z) (self : pdu) :
  from bytes = Ok self →
  ∃ b0 b1 b2 b3 rest, bytes = b0 :: b1 :: b2 :: b3 :: rest
    ∧ version self = Z.shiftr b0 6
    ∧ type self = Z.land (Z.shiftr b0 4) 3
    ∧ code self = b1
    ∧ message_id self = u16 (Z.lor (Z.shiftl b2 8) b3)
    ∧ (is_u8 b2 → is_u8 b3 → message_id self = b2 * 256 + b3)
    ∧ token self = take (Z.to_nat (Z.land b0 15)) rest
    ∧ length (token self) = Z.to_nat (Z.land b0 15).
Proof.
  unfold from. intros Hfrom.
  pose proof (parse_header_spec bytes) as Hspec.
  destruct (parse_header bytes) as [h| | | |]; try discriminate.
  destruct Hspec as (_ & b0 & b1 & b2 & b3 & rest & -> & -> & Hver & Htkl).
  cbn [mbind outcome_bind bind h_version h_type h_token_length h_code
       h_message_id] in Hfrom.
  exists b0, b1, b2, b3, rest.
  case_bool_decide as Htok; [discriminate|].
  assert (Hfields : ∀ options payload,
    let self := {| _version := Z.shiftr b0 6;
                   _type := Z.shiftr (Z.land b0 48) 4; _code := b1;
                   _message_id := u16 (Z.lor (Z.shiftl b2 8) b3);
                   _token := range (b0 :: b1 :: b2 :: b3 :: rest) 4
                               (4 + Z.to_nat (Z.land b0 15));
                   _options := options; _payload := payload |} in
    b0 :: b1 :: b2 :: b3 :: rest = b0 :: b1 :: b2 :: b3 :: rest
    ∧ version self = Z.shiftr b0 6
    ∧ type self = Z.land (Z.shiftr b0 4) 3
    ∧ code self = b1
    ∧ message_id self = u16 (Z.lor (Z.shiftl b2 8) b3)
    ∧ (is_u8 b2 → is_u8 b3 → message_id self = b2 * 256 + b3)
    ∧ token self = take (Z.to_nat (Z.land b0 15)) rest
    ∧ length (token self) = Z.to_nat (Z.land b0 15)).
  { intros options payload self0. subst self0.
    unfold version, type, code, message_id, token. cbn [_version _type _code
      _message_id _token].
    assert (Hrange : range (b0 :: b1 :: b2 :: b3 :: rest) 4
                       (4 + Z.to_nat (Z.land b0 15))
                     = take (Z.to_nat (Z.land b0 15)) rest).
    { unfold range. simpl drop. f_equal. lia. }
    rewrite Hrange. repeat split; try done.
    - rewrite Z.shiftr_land. reflexivity.
    - intros H2 H3. destruct (word_join b2 b3 H2 H3) as (Hmid & _).
      rewrite u16_small by done. by apply lor_shiftl_8.
    - rewrite length_take. simpl in Htok. lia. }
  case_bool_decide; [injection Hfrom as <-; apply Hfields|].
  destruct (parse_options _ _ _ _ _) as [[options it']| | | |]; try discriminate.
  cbn [mbind outcome_bind bind _version _type _code _message_id _token
       _options _payload] in Hfrom.
  case_bool_decide; injection Hfrom as <-; apply Hfields.
Qed.

Lemma X3_from_fields_witness :
  ∃ b0 b1 b2 b3 rest, test_pdu2 = b0 :: b1 :: b2 :: b3 :: rest
    ∧ version test_pdu2_decoded = Z.shiftr b0 6
    ∧ type test_pdu2_decoded = Z.land (Z.shiftr b0 4) 3
    ∧ code test_pdu2_decoded = b1
    ∧ message_id test_pdu2_decoded = u16 (Z.lor (Z.shiftl b2 8) b3)
    ∧ (is_u8 b2 → is_u8 b3 → message_id test_pdu2_decoded = b2 * 256 + b3)
    ∧ token test_pdu2_decoded = take (Z.to_nat (Z.land b0 15)) rest
    ∧ length (token test_pdu2_decoded) = Z.to_nat (Z.land b0 15).
Proof.
  apply (X3_from_fields test_pdu2 test_pdu2_decoded). reflexivity.
Defined.

(** X4. [from] throws for a cut token exactly when the header is accepted
    and the buffer is shorter than 4 bytes plus the token length the header
    announces. *)
Theorem X4_truncated_token (bytes : list Z) :
  from bytes = Throw TruncatedToken
  ↔ ∃ b0, bytes !! 0%nat = Some b0 ∧ (4 ≤ length bytes)%nat
      ∧ Z.shiftr b0 6 = 1 ∧ Z.land b0 15 <= 8
      ∧ (length bytes < 4 + Z.to_nat (Z.land b0 15))%nat.
Proof.
  unfold from.
  pose proof (parse_header_spec bytes) as Hspec.
  destruct (parse_header bytes) as [h|e| | |] eqn:Hh; try done.
  - destruct Hspec as (_ & b0 & b1 & b2 & b3 & rest & -> & -> & Hver & Htkl).
    cbn [mbind outcome_bind bind h_token_length].
    case_bool_decide as Htok.
    + split; [intros _|done]. exists b0. repeat split; try done. simpl. lia.
    + split.
      * intros Hthrow. exfalso.
        case_bool_decide; [discriminate|].
        destruct (parse_options _ _ _ _ _) as [[options it']|e| | |] eqn:Hloop;
          try discriminate.
        -- cbn [mbind outcome_bind bind] in Hthrow.
           case_bool_decide; discriminate.
        -- cbn [mbind outcome_bind bind] in Hthrow. injection Hthrow as ->.
           apply parse_options_throw in Hloop. destruct Hloop; discriminate.
      * intros (b & [= <-] & _ & _ & _ & Hshort). lia.
  - destruct Hspec as [Hmal Hrej]. cbn [mbind outcome_bind bind]. split.
    + intros [= ->]. destruct Hmal as [?|[?|?]]; discriminate.
    + intros (b0 & Hb0 & Hlen & Hver & Htkl & _). exfalso.
      destruct Hrej as [Hshort | (b & Hb & Hor)]; [lia|].
      rewrite Hb0 in Hb. injection Hb as <-. destruct Hor; [done | lia].
Qed.

(** ** Buffers that end too early or go on wrongly *)

Section Cuts.

Lemma last_number_app l1 : ∀ prev l2,
  last_number prev (l1 ++ l2) = last_number (last_number prev l1) l2.
Proof. induction l1 as [|o l1 IH]; intros prev l2; simpl; [done|]. apply IH. Qed.

Lemma options_bytes_app l1 : ∀ prev l2,
  options_bytes prev (l1 ++ l2)
  = options_bytes prev l1 ++ options_bytes (last_number prev l1) l2.
Proof.
  induction l1 as [|o l1 IH]; intros prev l2;
    cbn [options_bytes last_number app]; [done|].
  by rewrite IH, <- app_assoc.
Qed.

Lemma representable_app l1 : ∀ prev l2,
  representable prev (l1 ++ l2)
  ↔ representable prev l1 ∧ representable (last_number prev l1) l2.
Proof.
  induction l1 as [|o l1 IH]; intros prev l2; simpl; [tauto|].
  rewrite IH. tauto.
Qed.

Lemma to_bytes_Ok ndebug self b :
  wf_pdu self → representable 0 (_options self) →
  to_bytes ndebug self = Ok b → b = wire self.
Proof.
  intros Hself Hrep Hto.
  destruct (from_to_bytes ndebug self Hself Hrep) as [Hwire _].
  rewrite Hwire in Hto. by injection Hto.
Qed.

Lemma wire_no_payload self : _payload self = [] → wire self = frame self.
Proof. intros Hpl. unfold wire. rewrite Hpl. cbn [payload_bytes]. apply app_nil_r. Qed.

Lemma deref_behind pre d rest k :
  deref (pre ++ d :: rest) (S (length pre + k)) = deref rest k.
Proof.
  unfold deref.
  rewrite lookup_app_r by lia.
  by replace (S (length pre + k) - length pre)%nat with (S k) by lia.
Qed.

(** [parse_value] behind the descriptor [d], in terms of the bytes that
    follow it. *)
Lemma parse_value_behind pre d rest val it k :
  it = (length pre + k)%nat →
  parse_value (pre ++ d :: rest) val it
  = if val =? 13 then
      b ← deref rest k; Ok (13 + b, S it)
    else if val =? 14 then
      hi ← deref rest k; lo ← deref rest (S k);
      Ok (269 + Z.lor (Z.shiftl hi 8) lo, S (S it))
    else if val =? 15 then Throw ReservedLengthField
    else Ok (val, it).
Proof.
  intros ->. unfold parse_value. rewrite deref_behind.
  replace (S (S (length pre + k))) with (S (length pre + S k)) by lia.
  by rewrite deref_behind.
Qed.

(** One iteration of the loop on the descriptor [d]. *)
Lemma parse_options_descriptor fuel pre d rest num acc :
  d ≠ 255 →
  parse_options (S fuel) (pre ++ d :: rest) (length pre) num acc
  = '(option_delta, it) ← parse_value (pre ++ d :: rest) (Z.shiftr d 4) (length pre);
    '(option_length, it) ← parse_value (pre ++ d :: rest) (Z.land d 15) it;
    if bool_decide (length (pre ++ d :: rest) < S it + Z.to_nat option_length)%nat
    then Throw TruncatedOption
    else parse_options fuel (pre ++ d :: rest) (S it + Z.to_nat option_length)
           (u32 (num + option_delta))
           (acc ++ [mk_option (u32 (num + option_delta))
                      (range (pre ++ d :: rest) (S it)
                         (S it + Z.to_nat option_length))]).
Proof.
  intros Hd. cbn [parse_options].
  rewrite list_lookup_middle by done.
  by rewrite (proj2 (Z.eqb_neq d 255)) by done.
Qed.

End Cuts.

(** X5. Behind the options of an encoded message, a descriptor byte other
    than 0xFF whose delta nibble is 15, or whose length nibble is 15 while
    the extension of its delta is in the buffer, makes [from] throw for a
    reserved length field. *)
Theorem X5_reserved_nibble ndebug self b d rest :
  wf_pdu self → representable 0 (_options self) → _payload self = [] →
  to_bytes ndebug self = Ok b →
  d ≠ 255 →
  Z.shiftr d 4 = 15
  ∨ (Z.land d 15 = 15 ∧ Z.shiftr d 4 ≠ 15
     ∧ (extension_size (Z.shiftr d 4) ≤ length rest)%nat) →
  from (b ++ d :: rest) = Throw ReservedLengthField.
Proof.
  intros Hself Hrep Hpl Hto Hd Hcases.
  rewrite (to_bytes_Ok _ _ _ Hself Hrep Hto), (wire_no_payload _ Hpl).
  rewrite from_frame_loop by done.
  cbn [length]. rewrite parse_options_descriptor by done.
  rewrite (parse_value_behind _ _ _ (Z.shiftr d 4) _ 0) by lia.
  destruct Hcases as [H15 | (Hlen & Hn15 & Hext)].
  { rewrite H15. reflexivity. }
  unfold extension_size in Hext.
  destruct (Z.shiftr d 4 =? 13) eqn:H13.
  { destruct rest as [|r0 rest]; [simpl in Hext; lia|].
    cbn [deref lookup list_lookup mbind outcome_bind bind].
    rewrite (parse_value_behind _ _ _ _ _ 1) by lia.
    rewrite Hlen. reflexivity. }
  destruct (Z.shiftr d 4 =? 14) eqn:H14.
  { destruct rest as [|r0 [|r1 rest]]; [simpl in Hext; lia..|].
    cbn [deref lookup list_lookup mbind outcome_bind bind].
    rewrite (parse_value_behind _ _ _ _ _ 2) by lia.
    rewrite Hlen. reflexivity. }
  rewrite (proj2 (Z.eqb_neq _ 15)) by done.
  cbn [mbind outcome_bind bind].
  rewrite (parse_value_behind _ _ _ _ _ 0) by lia.
  rewrite Hlen. reflexivity.
Qed.

Lemma X5_reserved_nibble_witness :
  from ([64; 0; 0; 0; 16] ++ 240 :: []) = Throw ReservedLengthField.
Proof.
  apply (X5_reserved_nibble false
           (snd (add_option (mk_option 1 []) default_pdu)) [64; 0; 0; 0; 16] 240 []).
  - unfold add_option, default_pdu. simpl. solve_wf.
  - solve_representable.
  - reflexivity.
  - reflexivity.
  - lia.
  - left. reflexivity.
Defined.

(** X6. Behind the options of an encoded message, a descriptor byte that
    announces more extension bytes than the buffer still holds makes
    [from] read behind the end of the buffer, unless a nibble of 15 makes
    it throw first. *)
Theorem X6_missing_extension ndebug self b d rest :
  wf_pdu self → representable 0 (_options self) → _payload self = [] →
  to_bytes ndebug self = Ok b →
  d ≠ 255 → Z.shiftr d 4 ≠ 15 →
  (length rest < extension_size (Z.shiftr d 4))%nat
  ∨ (Z.land d 15 ≠ 15
     ∧ (length rest < extension_size (Z.shiftr d 4)
                      + extension_size (Z.land d 15))%nat) →
  from (b ++ d :: rest) = Undefined.
Proof.
  intros Hself Hrep Hpl Hto Hd Hn15 Hcases.
  rewrite (to_bytes_Ok _ _ _ Hself Hrep Hto), (wire_no_payload _ Hpl).
  rewrite from_frame_loop by done.
  cbn [length]. rewrite parse_options_descriptor by done.
  set (pre := frame self) in *.
  unfold extension_size in Hcases.
  rewrite (parse_value_behind _ _ _ (Z.shiftr d 4) _ 0) by lia.
  destruct (Z.shiftr d 4 =? 13) eqn:Hd13.
  { destruct rest as [|r0 rest]; [reflexivity|].
    cbn [deref lookup list_lookup mbind outcome_bind bind].
    destruct Hcases as [Hshort | [Hl15 Hshort]]; [simpl in Hshort; lia|].
    rewrite (parse_value_behind _ _ _ _ _ 1) by lia.
    destruct (Z.land d 15 =? 13) eqn:Hl13.
    { destruct rest as [|r1 rest]; [reflexivity|]. simpl in Hshort. lia. }
    destruct (Z.land d 15 =? 14) eqn:Hl14.
    { destruct rest as [|r1 [|r2 rest]]; [reflexivity..|]. simpl in Hshort. lia. }
    simpl in Hshort. lia. }
  destruct (Z.shiftr d 4 =? 14) eqn:Hd14.
  { destruct rest as [|r0 [|r1 rest]]; [reflexivity..|].
    cbn [deref lookup list_lookup mbind outcome_bind bind].
    destruct Hcases as [Hshort | [Hl15 Hshort]]; [simpl in Hshort; lia|].
    rewrite (parse_value_behind _ _ _ _ _ 2) by lia.
    destruct (Z.land d 15 =? 13) eqn:Hl13.
    { destruct rest as [|r2 rest]; [reflexivity|]. simpl in Hshort. lia. }
    destruct (Z.land d 15 =? 14) eqn:Hl14.
    { destruct rest as [|r2 [|r3 rest]]; [reflexivity..|]. simpl in Hshort. lia. }
    simpl in Hshort. lia. }
  rewrite (proj2 (Z.eqb_neq _ 15)) by done.
  cbn [mbind outcome_bind bind].
  destruct Hcases as [Hshort | [Hl15 Hshort]]; [lia|].
  rewrite (parse_value_behind _ _ _ _ _ 0) by lia.
  destruct (Z.land d 15 =? 13) eqn:Hl13.
  { destruct rest as [|r0 rest]; [reflexivity|]. simpl in Hshort. lia. }
  destruct (Z.land d 15 =? 14) eqn:Hl14.
  { destruct rest as [|r0 [|r1 rest]]; [reflexivity..|]. simpl in Hshort. lia. }
  simpl in Hshort. lia.
Qed.

Lemma X6_missing_extension_witness :
  from ([64; 0; 0; 0; 16] ++ 224 :: [1]) = Undefined.
Proof.
  apply (X6_missing_extension false
           (snd (add_option (mk_option 1 []) default_pdu)) [64; 0; 0; 0; 16] 224 [1]).
  - unfold add_option, default_pdu. simpl. solve_wf.
  - solve_representable.
  - reflexivity.
  - reflexivity.
  - lia.
  - vm_compute. discriminate.
  - left. vm_compute. lia.
Defined.

Section Appended.

Lemma frame_add_option o self :
  frame (snd (add_option o self))
  = frame self ++ entry_bytes (last_number 0 (_options self)) o.
Proof.
  unfold frame, add_option, header_bytes.
  cbn [snd _version _type _code _message_id _token _options].
  rewrite options_bytes_app. cbn [options_bytes].
  rewrite app_nil_r. by rewrite <- !app_assoc.
Qed.

Lemma add_option_wf o self :
  wf_pdu self → wf_option o → wf_pdu (snd (add_option o self)).
Proof. intros Hself Ho. by apply (call_wf (AddOption o)). Qed.

End Appended.

(** X7. An encoded message whose last option has a value, cut anywhere
    inside that value, makes [from] throw for a truncated option. *)
Theorem X7_truncated_value ndebug self o b k :
  wf_pdu self → wf_option o →
  representable 0 (_options self ++ [o]) → _payload self = [] →
  to_bytes ndebug (snd (add_option o self)) = Ok b →
  (length b - length (value o) ≤ k < length b)%nat →
  from (take k b) = Throw TruncatedOption.
Proof.
  intros Hself Ho Hrep Hpl Hto Hk.
  apply representable_app in Hrep as [Hrep (Hdelta & Hlen & _)].
  assert (Hb : b = frame self ++ entry_bytes (last_number 0 (_options self)) o).
  { rewrite <- frame_add_option, <- wire_no_payload by done.
    apply (to_bytes_Ok ndebug); [by apply add_option_wf| |done].
    cbn [add_option snd _options]. apply representable_app. simpl. tauto. }
  set (prev := last_number 0 (_options self)) in *.
  destruct Ho as [Hnum Hval].
  assert (Hsize : size32 (value o) = Z.of_nat (length (value o)))
    by (by apply size32_small).
  unfold entry_bytes in Hb. rewrite (fmap_u8_wf _ Hval) in Hb.
  set (delta := u32 (number o - prev)) in *.
  set (d := u8 (Z.lor (Z.shiftl (get_nibble delta) 4)
                  (get_nibble (size32 (value o))))) in *.
  assert (Hlenb : length b
    = (length (frame self) + 1 + length (ext_bytes delta)
       + length (ext_bytes (size32 (value o))) + length (value o))%nat).
  { rewrite Hb, length_app. cbn [length]. rewrite !length_app. lia. }
  set (j := (k - (length b - length (value o)))%nat).
  assert (Htake : take k b
    = frame self ++ d :: ext_bytes delta ++ ext_bytes (size32 (value o))
                      ++ take j (value o)).
  { rewrite Hb.
    replace (frame self ++ d :: ext_bytes delta
               ++ ext_bytes (size32 (value o)) ++ value o)
      with ((frame self ++ d :: ext_bytes delta
               ++ ext_bytes (size32 (value o))) ++ value o)
      by (by rewrite <- !app_assoc, <- app_comm_cons, <- !app_assoc).
    rewrite take_app_ge
      by (rewrite length_app; cbn [length]; rewrite length_app; lia).
    rewrite <- !app_assoc, <- app_comm_cons, <- !app_assoc.
    do 5 f_equal. unfold j.
    rewrite length_app. cbn [length]. rewrite length_app. lia. }
  rewrite Htake.
  rewrite from_frame_loop by done.
  cbn [length].
  rewrite (parse_options_head _ _ (frame self) (take j (value o)) prev
             (_options self) delta (size32 (value o)));
    [| pose proof (Z.mod_pos_bound (number o - prev) 4294967296);
       unfold delta, u32 in Hdelta |- *; lia | rewrite Hsize; lia | done].
  rewrite bool_decide_eq_true_2; [done|].
  rewrite length_take, Hsize. unfold j. lia.
Qed.

Lemma X7_truncated_value_witness :
  from (take 6 [64; 0; 0; 0; 18; 7; 8]) = Throw TruncatedOption.
Proof.
  apply (X7_truncated_value false default_pdu (mk_option 1 [7; 8])
           [64; 0; 0; 0; 18; 7; 8] 6).
  - apply default_pdu_wf.
  - solve_wf.
  - solve_representable.
  - reflexivity.
  - reflexivity.
  - simpl. lia.
Defined.

(** X8. An encoded message with a payload, cut anywhere from its separator
    on, still decodes: to the same message with the payload cut at the
    same place (to none when the cut is at the separator or just behind
    it). *)
Theorem X8_truncated_payload ndebug self b k :
  wf_pdu self → representable 0 (_options self) → _payload self ≠ [] →
  to_bytes ndebug self = Ok b →
  (length b - length (_payload self) - 1 ≤ k)%nat →
  from (take k b)
  = Ok (snd (set_payload
               (take (k - (length b - length (_payload self))) (_payload self))
               self)).
Proof.
  intros Hself Hrep Hpl Hto Hk.
  rewrite (to_bytes_Ok _ _ _ Hself Hrep Hto) in *.
  unfold wire in *. destruct (_payload self) as [|p payload] eqn:Hpay; [done|].
  assert (Hwf : wf_bytes (p :: payload))
    by (rewrite <- Hpay; apply (wf_payload _ Hself)).
  cbn [payload_bytes] in *. rewrite (fmap_u8_wf _ Hwf) in *.
  rewrite length_app in *. cbn [length] in *.
  rewrite take_app_ge by lia.
  destruct (k - length (frame self))%nat as [|n] eqn:Hn.
  - cbn [take]. rewrite from_frame by (done || by left).
    replace (k - (length (frame self) + S (S (length payload))
                  - S (length payload)))%nat with 0%nat by lia.
    reflexivity.
  - cbn [take]. rewrite from_frame by (done || (right; by eexists)).
    cbn [tail].
    replace (k - (length (frame self) + S (S (length payload))
                  - S (length payload)))%nat with n by lia.
    reflexivity.
Qed.

Lemma X8_truncated_payload_witness :
  from (take 7 [64; 0; 0; 0; 255; 1; 2; 3])
  = Ok (snd (set_payload (take (7 - (8 - 3)) [1; 2; 3]) default_pdu)).
Proof.
  apply (X8_truncated_payload false
           (snd (set_payload [1; 2; 3] default_pdu)) [64; 0; 0; 0; 255; 1; 2; 3] 7).
  - unfold set_payload, default_pdu. solve_wf.
  - solve_representable.
  - discriminate.
  - reflexivity.
  - simpl. lia.
Defined.

(** ** Decoding and encoding, one after the other *)

Section Bytes.

Lemma fmap_u8_bytes l : wf_bytes (u8 <$> l).
Proof.
  induction l as [|x l IH]; [constructor|].
  rewrite fmap_cons. apply Forall_cons_2; [apply u8_range | done].
Qed.

Lemma ext_bytes_wf val : wf_bytes (ext_bytes val).
Proof.
  unfold ext_bytes. destruct (val <? 13); [constructor|].
  destruct (val <? 269); repeat (apply Forall_cons_2; [apply u8_range|]);
    constructor.
Qed.

Lemma options_bytes_wf options : ∀ prev, wf_bytes (options_bytes prev options).
Proof.
  induction options as [|o options IH]; intros prev; [constructor|].
  cbn [options_bytes]. apply Forall_app_2; [|apply IH].
  unfold entry_bytes. apply Forall_cons_2; [apply u8_range|].
  repeat apply Forall_app_2; apply ext_bytes_wf || apply fmap_u8_bytes.
Qed.

Lemma wire_wf self : wf_bytes (wire self).
Proof.
  unfold wire, frame, header_bytes.
  repeat apply Forall_app_2;
    try apply options_bytes_wf; try apply fmap_u8_bytes.
  - repeat (apply Forall_cons_2; [apply u8_range|]). constructor.
  - unfold payload_bytes. destruct (_payload self); [constructor|].
    apply Forall_cons_2; [unfold is_u8; lia | apply fmap_u8_bytes].
Qed.

Lemma length_wire self : length (wire self) = required_size self.
Proof.
  unfold required_size, wire, frame, header_bytes.
  rewrite required_size_options_length, !length_app, length_fmap,
    length_payload_bytes.
  cbn [length]. destruct (length (_payload self)); lia.
Qed.

End Bytes.

(** X9. A message [from] returned is one [to_bytes] encodes, in the build
    with assertions too; the encoding decodes to the same message, and it
    is the buffer the message came from, or that buffer without a final
    separator byte. *)
Theorem X9_reencode (ndebug : bool) (bytes : list Z) (self : pdu) :
  wf_bytes bytes → from bytes = Ok self →
  ∃ encoded, to_bytes ndebug self = Ok encoded
    ∧ from encoded = Ok self
    ∧ (bytes = encoded ∨ bytes = encoded ++ [255]).
Proof.
  intros Hwf Hfrom.
  destruct (to_bytes_from ndebug bytes self Hwf Hfrom)
    as (encoded & Hto & Hback & Hcases).
  exists encoded. split_and!; [done..|]. destruct Hcases as [?|[_ ?]]; auto.
Qed.

Lemma X9_reencode_witness :
  ∃ encoded, to_bytes false default_pdu = Ok encoded
    ∧ from encoded = Ok default_pdu
    ∧ ([64; 0; 0; 0; 255] = encoded ∨ [64; 0; 0; 0; 255] = encoded ++ [255]).
Proof.
  apply (X9_reencode false [64; 0; 0; 0; 255] default_pdu).
  - solve_wf.
  - reflexivity.
Defined.

(** X10. Two buffers that [from] decodes to the same message are the same
    buffer, or one is the other followed by a single separator byte. *)
Theorem X10_from_injective (bytes1 bytes2 : list Z) (self : pdu) :
  wf_bytes bytes1 → wf_bytes bytes2 →
  from bytes1 = Ok self → from bytes2 = Ok self →
  bytes1 = bytes2 ∨ bytes1 = bytes2 ++ [255] ∨ bytes2 = bytes1 ++ [255].
Proof.
  intros Hwf1 Hwf2 Hfrom1 Hfrom2.
  destruct (from_inv bytes1 self Hwf1 Hfrom1) as (_ & _ & post1 & -> & Hpost1).
  destruct (from_inv bytes2 self Hwf2 Hfrom2) as (_ & _ & post2 & -> & Hpost2).
  destruct Hpost1 as [[-> Hpl1] | ->], Hpost2 as [[-> Hpl2] | ->].
  - by left.
  - right; right. by rewrite Hpl1, app_nil_r.
  - right; left. by rewrite Hpl2, app_nil_r.
  - by left.
Qed.

Lemma X10_from_injective_witness :
  [64; 0; 0; 0] = [64; 0; 0; 0; 255]
  ∨ [64; 0; 0; 0] = [64; 0; 0; 0; 255] ++ [255]
  ∨ [64; 0; 0; 0; 255] = [64; 0; 0; 0] ++ [255].
Proof.
  apply (X10_from_injective [64; 0; 0; 0] [64; 0; 0; 0; 255] default_pdu).
  - solve_wf.
  - solve_wf.
  - reflexivity.
  - reflexivity.
Defined.

(** X11. Two messages within the ranges of the format that [to_bytes]
    encodes to the same bytes are the same message. *)
Theorem X11_to_bytes_injective (ndebug : bool) (self1 self2 : pdu) (b : list Z) :
  wf_pdu self1 → representable 0 (_options self1) →
  wf_pdu self2 → representable 0 (_options self2) →
  to_bytes ndebug self1 = Ok b → to_bytes ndebug self2 = Ok b →
  self1 = self2.
Proof.
  intros Hwf1 Hrep1 Hwf2 Hrep2 Hto1 Hto2.
  destruct (from_to_bytes ndebug self1 Hwf1 Hrep1) as [Hw1 Hback1].
  destruct (from_to_bytes ndebug self2 Hwf2 Hrep2) as [Hw2 Hback2].
  rewrite Hw1 in Hto1. rewrite Hw2 in Hto2.
  injection Hto1 as Hb1. injection Hto2 as Hb2.
  rewrite Hb1 in Hback1. rewrite Hb2 in Hback2.
  rewrite Hback1 in Hback2. by injection Hback2.
Qed.

Lemma X11_to_bytes_injective_witness :
  snd (set_type 0 default_pdu) = default_pdu.
Proof.
  apply (X11_to_bytes_injective false (snd (set_type 0 default_pdu)) default_pdu
           [64; 0; 0; 0]).
  - unfold set_type, default_pdu. simpl. solve_wf.
  - exact I.
  - apply default_pdu_wf.
  - exact I.
  - reflexivity.
  - reflexivity.
Defined.

(** X12. In both builds and for every message whose size fits the [int]
    that counts it, every write of [to_bytes] lands inside the buffer the
    first loop sized; the vector returned has that size and holds bytes. *)
Theorem X12_to_bytes_in_bounds (ndebug : bool) (self : pdu) :
  Z.of_nat (required_size self) < 2147483648 →
  to_bytes ndebug self ≠ Undefined
  ∧ ∀ b, to_bytes ndebug self = Ok b →
      length b = required_size self ∧ wf_bytes b.
Proof.
  intros _. rewrite to_bytes_wire.
  destruct (ndebug || options_fit 0 (_options self)); split; try done.
  intros b [= <-]. split; [apply length_wire | apply wire_wf].
Qed.

Lemma X12_to_bytes_in_bounds_witness :
  to_bytes false test_pdu2_decoded ≠ Undefined
  ∧ ∀ b, to_bytes false test_pdu2_decoded = Ok b →
      length b = required_size test_pdu2_decoded ∧ wf_bytes b.
Proof.
  apply (X12_to_bytes_in_bounds false test_pdu2_decoded).
  vm_compute. reflexivity.
Defined.

(** X13. The first bytes [to_bytes] returns for a message that keeps the
    invariant of the class: 64 + 16 * type + token length, the code, the
    message id high byte first, then the token. *)
Theorem X13_header_layout (ndebug : bool) (self : pdu) (b : list Z) :
  wf_pdu self → to_bytes ndebug self = Ok b →
  ∃ hi lo rest,
    b = (64 + 16 * type self + Z.of_nat (length (token self)))
        :: code self :: hi :: lo :: token self ++ rest
    ∧ is_u8 hi ∧ is_u8 lo ∧ hi * 256 + lo = message_id self.
Proof.
  intros [Hver Htype Hcode Hmid Htok Htkl Hopts Hpay] Hto.
  rewrite to_bytes_wire in Hto.
  destruct (ndebug || options_fit 0 (_options self)); [|discriminate].
  injection Hto as <-.
  unfold wire, frame, header_bytes, type, code, message_id, token.
  rewrite Hver, (fmap_u8_wf _ Htok), (u8_small _ Hcode).
  exists (u8 (Z.shiftr (_message_id self) 8)), (u8 (_message_id self)),
    (options_bytes 0 (_options self) ++ payload_bytes (_payload self)).
  assert (Hall : ∀ x, 0 <= x < 4 →
    Forall (λ y, u8 (Z.lor (Z.lor (Z.shiftl 1 6) (Z.shiftl x 4)) y)
                 = 64 + 16 * x + y) (seqZ 0 9)).
  { apply (range_check _ 4). vm_compute. reflexivity. }
  specialize (Hall (_type self) ltac:(lia)). rewrite Forall_seqZ in Hall.
  rewrite (Hall (Z.of_nat (length (_token self)))) by lia.
  split; [by rewrite <- !app_assoc|].
  split; [apply u8_range|]. split; [apply u8_range|].
  destruct (word_split _ Hmid) as [Hhi Hjoin].
  rewrite lor_shiftl_8 in Hjoin by apply u8_range.
  by rewrite (u8_small _ Hhi).
Qed.

Lemma X13_header_layout_witness :
  ∃ hi lo rest,
    test_pdu2
    = (64 + 16 * type test_pdu2_decoded
       + Z.of_nat (length (token test_pdu2_decoded)))
      :: code test_pdu2_decoded :: hi :: lo :: token test_pdu2_decoded ++ rest
    ∧ is_u8 hi ∧ is_u8 lo ∧ hi * 256 + lo = message_id test_pdu2_decoded.
Proof.
  apply (X13_header_layout false test_pdu2_decoded test_pdu2).
  - unfold test_pdu2_decoded. solve_wf.
  - reflexivity.
Defined.

(** X14. In the build without assertions [to_bytes] returns for every
    message whose size fits the [int] that counts it; when a delta or a
    value length is above 65804 the bytes it returns do not decode to the
    message. *)
Theorem X14_release_build_out_of_range (self : pdu) :
  Z.of_nat (required_size self) < 2147483648 →
  ¬ representable 0 (_options self) →
  ∃ b, to_bytes true self = Ok b ∧ from b ≠ Ok self.
Proof.
  intros _ Hnot. exists (wire self). split.
  - by rewrite to_bytes_wire.
  - intros Hfrom. apply Hnot.
    by destruct (from_inv (wire self) self (wire_wf self) Hfrom) as (_ & Hrep & _).
Qed.

Lemma X14_release_build_out_of_range_witness :
  ∃ b, to_bytes true delta_too_large = Ok b ∧ from b ≠ Ok delta_too_large.
Proof.
  apply (X14_release_build_out_of_range delta_too_large).
  - vm_compute. reflexivity.
  - vm_compute. intros [H _]. by apply H.
Defined.

(** ** The mutators and the encoding *)

Section Mutators.

Lemma options_fit_app l1 : ∀ prev l2,
  options_fit prev (l1 ++ l2)
  = options_fit prev l1 && options_fit (last_number prev l1) l2.
Proof.
  induction l1 as [|o l1 IH]; intros prev l2; [done|].
  cbn [app options_fit last_number]. rewrite IH. by rewrite !andb_assoc.
Qed.

Lemma call_typed_wf m self :
  typed_input m → wf_pdu self → wf_pdu (snd (call m self)).
Proof.
  intros Hm [Hver Htype Hcode Hmid Htok Htkl Hopts Hpay].
  destruct m as [type|code|mid|token|opt|payload]; cbn [typed_input call] in *.
  - unfold set_type. case_bool_decide as Hle; cbn [snd]; constructor;
      cbn [_version _type _code _message_id _token _options _payload];
      try done.
    unfold is_u8 in Hm. lia.
  - by constructor.
  - by constructor.
  - unfold set_token. case_bool_decide as Hle; cbn [snd]; constructor;
      cbn [_version _type _code _message_id _token _options _payload];
      try done.
    lia.
  - constructor;
      cbn [add_option snd _version _type _code _message_id _token _options
           _payload]; try done.
    apply Forall_app_2; [done|]. apply Forall_cons_2; [done | constructor].
  - by constructor.
Qed.

End Mutators.

(** X15. Setting a payload changes the encoding only behind the options:
    the bytes are those of the message without a payload, then the
    separator 0xFF and the payload. *)
Theorem X15_payload_appended (ndebug : bool) (self : pdu) (payload : list Z) :
  wf_bytes payload → payload ≠ [] →
  to_bytes ndebug (snd (set_payload payload self))
  = b ← to_bytes ndebug (snd (set_payload [] self)); Ok (b ++ 255 :: payload).
Proof.
  intros Hwf Hne. rewrite !to_bytes_wire.
  cbn [set_payload snd _options].
  destruct (ndebug || options_fit 0 (_options self)); [|done].
  cbn [mbind outcome_bind bind]. f_equal.
  unfold wire, frame, header_bytes.
  cbn [_version _type _code _message_id _token _options _payload payload_bytes].
  rewrite app_nil_r. destruct payload as [|p payload]; [done|].
  cbn [payload_bytes]. by rewrite (fmap_u8_wf _ Hwf).
Qed.

Lemma X15_payload_appended_witness :
  to_bytes false (snd (set_payload [7] default_pdu))
  = b ← to_bytes false (snd (set_payload [] default_pdu)); Ok (b ++ 255 :: [7]).
Proof.
  apply (X15_payload_appended false default_pdu [7]).
  - solve_wf.
  - discriminate.
Defined.

(** X16. Adding an option to a message without a payload leaves the bytes
    already encoded as they are: the new encoding is the old one followed
    by the entry of the new option, whose delta is taken from the option
    added last; in the build with assertions it stops when that delta or
    the value length is above 65804. *)
Theorem X16_option_appended (ndebug : bool) (self : pdu) (o : coapp_option)
    (b : list Z) :
  _payload self = [] → to_bytes ndebug self = Ok b →
  let prev := last_number 0 (options self) in
  to_bytes ndebug (snd (add_option o self))
  = if ndebug || negb (too_large (u32 (number o - prev)))
                 && negb (too_large (size32 (value o)))
    then Ok (b ++ entry_bytes prev o)
    else Abort.
Proof.
  intros Hpl Hto prev. subst prev. unfold options.
  rewrite to_bytes_wire in *.
  destruct (ndebug || options_fit 0 (_options self)) eqn:Hfit; [|discriminate].
  injection Hto as <-.
  cbn [add_option snd _options]. rewrite options_fit_app.
  cbn [options_fit]. rewrite andb_true_r.
  assert (Hwire : wire (snd (add_option o self))
                  = wire self ++ entry_bytes (last_number 0 (_options self)) o).
  { rewrite !wire_no_payload by done. apply frame_add_option. }
  rewrite <- Hwire. cbn [add_option snd].
  destruct ndebug; [done|]. simpl in Hfit. rewrite Hfit. reflexivity.
Qed.

Lemma X16_option_appended_witness :
  to_bytes false (snd (add_option (mk_option 300 [9]) default_pdu))
  = Ok ([64; 0; 0; 0] ++ entry_bytes 0 (mk_option 300 [9])).
Proof.
  apply (X16_option_appended false default_pdu (mk_option 300 [9]) [64; 0; 0; 0]).
  - reflexivity.
  - reflexivity.
Defined.

(** X17. The mutators keep the invariant of the class, whatever the calls
    and whether they throw or not: after any sequence of calls with
    arguments of the parameter types, the version is 1, the type is at most
    3 and the token has at most 8 bytes. *)
Theorem X17_mutators_keep_invariant (calls : list mutator) (self : pdu) :
  wf_pdu self → Forall typed_input calls →
  wf_pdu (build calls self)
  ∧ version (build calls self) = 1
  ∧ 0 <= type (build calls self) <= 3
  ∧ (length (token (build calls self)) ≤ 8)%nat.
Proof.
  intros Hself Hcalls.
  assert (Hwf : wf_pdu (build calls self)).
  { revert self Hself. induction Hcalls as [|m calls Hm Hcalls IH];
      intros self Hself; [done|].
    cbn [build]. apply IH. by apply call_typed_wf. }
  split; [done|]. destruct Hwf as [Hver Htype _ _ _ Htkl _ _].
  unfold version, type, token. split_and!; done || lia.
Qed.

Lemma X17_mutators_keep_invariant_witness :
  wf_pdu (build rejected_calls default_pdu)
  ∧ version (build rejected_calls default_pdu) = 1
  ∧ 0 <= type (build rejected_calls default_pdu) <= 3
  ∧ (length (token (build rejected_calls default_pdu)) ≤ 8)%nat.
Proof.
  apply (X17_mutators_keep_invariant rejected_calls default_pdu).
  - apply default_pdu_wf.
  - apply Forall_cons_2; [simpl; unfold is_u8; lia|].
    apply Forall_cons_2; [simpl; solve_wf|]. constructor.
Defined.

(** ** The order of the options [from] returns *)

Section Ascending.

(** A delta is at most 21935 times the bytes its entry takes at least:
    the descriptor and the extension of the delta. *)
Lemma ext_bound delta :
  0 <= delta <= 65804 →
  delta <= 21935 * (1 + Z.of_nat (length (ext_bytes delta))).
Proof.
  intros Hdelta. unfold ext_bytes.
  destruct (Z.ltb_spec delta 13); [simpl; lia|].
  destruct (Z.ltb_spec delta 269); simpl; lia.
Qed.

Lemma representable_ascending options : ∀ prev,
  0 <= prev → Forall wf_option options → representable prev options →
  prev + 21935 * Z.of_nat (length (options_bytes prev options)) < 4294967296 →
  Forall (λ o, prev <= number o) options ∧ ascending options.
Proof.
  induction options as [|o options IH]; intros prev Hprev Hwf Hrep Hbound.
  { split; constructor. }
  apply Forall_cons_1 in Hwf as [[Hnum Hval] Hwf].
  destruct Hrep as (Hdelta & Hlen & Hrep).
  cbn [options_bytes] in Hbound.
  rewrite length_app, length_entry_bytes in Hbound.
  pose proof (u32_range (number o - prev)) as Hrange.
  pose proof (u32_delta prev (number o) Hnum) as Hsum.
  set (delta := u32 (number o - prev)) in *.
  pose proof (ext_bound delta ltac:(unfold is_u32 in Hrange; lia)) as Hext.
  unfold is_u32 in Hrange.
  rewrite u32_small in Hsum by (unfold is_u32; lia).
  destruct (IH (number o)) as [Hall Hsorted]; [lia | done | done | lia |].
  split.
  - apply Forall_cons_2; [lia|].
    eapply Forall_impl; [exact Hall|]. intros x Hx. simpl in Hx. lia.
  - by constructor.
Qed.

End Ascending.

(** X18. From a buffer of at most 65535 bytes, the size of a datagram,
    [from] returns the options in ascending order of number: no sum of
    deltas wraps around 32 bits. *)
Theorem X18_options_ascending (bytes : list Z) (self : pdu) :
  wf_bytes bytes → Z.of_nat (length bytes) <= 65535 → from bytes = Ok self →
  ascending (options self).
Proof.
  intros Hwf Hlen Hfrom.
  destruct (from_inv bytes self Hwf Hfrom) as (Hself & Hrep & post & -> & _).
  unfold frame in Hlen. rewrite !length_app in Hlen.
  apply (representable_ascending (_options self) 0);
    [lia | by destruct Hself | done | lia].
Qed.

Lemma X18_options_ascending_witness : ascending (options test_pdu2_decoded).
Proof.
  apply (X18_options_ascending test_pdu2 test_pdu2_decoded).
  - unfold test_pdu2. solve_wf.
  - unfold test_pdu2. simpl. lia.
  - reflexivity.
Defined.

(** ** The response codes *)

(** X19. [RESPONSE_CODE] packs a code written class * 100 + detail, with a
    class below 8 and a detail below 32, into one byte: the class in the
    top three bits, where [RESPONSE_CLASS] finds it, and the detail in
    the low five.  Every argument it gets in [enum Code] is such a code. *)
Theorem X19_response_code :
  (∀ class detail, 0 <= class < 8 → 0 <= detail < 32 →
     RESPONSE_CODE (100 * class + detail) = 32 * class + detail
     ∧ is_u8 (RESPONSE_CODE (100 * class + detail))
     ∧ RESPONSE_CLASS (RESPONSE_CODE (100 * class + detail)) = class
     ∧ Z.land (RESPONSE_CODE (100 * class + detail)) 31 = detail)
  ∧ Forall (λ Code, ∃ class detail, 0 <= class < 8 ∧ 0 <= detail < 32
                      ∧ Code = 100 * class + detail) response_codes.
Proof.
  split.
  - intros class detail Hclass Hdetail.
    assert (Hall : ∀ x, 0 <= x < 8 →
      Forall (λ y, RESPONSE_CODE (100 * x + y) = 32 * x + y
                   ∧ RESPONSE_CLASS (RESPONSE_CODE (100 * x + y)) = x
                   ∧ Z.land (RESPONSE_CODE (100 * x + y)) 31 = y)
             (seqZ 0 32)).
    { apply (range_check _ 8). vm_compute. reflexivity. }
    specialize (Hall class Hclass). rewrite Forall_seqZ in Hall.
    destruct (Hall detail ltac:(lia)) as (Hcode & Hcls & Hdet).
    split_and!; try done. rewrite Hcode. unfold is_u8. lia.
  - unfold response_codes.
    repeat (apply Forall_cons_2;
      [match goal with |- ∃ class detail, _ ∧ _ ∧ ?c = _ =>
         exists (c / 100), (c mod 100); vm_compute; repeat split; discriminate
       end|]).
    constructor.
Qed.

(** ** The revision with a [std::multimap] *)

Section Revised.

(** [encode_val] of the revision appends the extension bytes, or stops at
    its [assert]. *)
Lemma revision_encode_val ndebug val options_buf :
  is_u32 val →
  Revision.encode_val ndebug (get_nibble val) val options_buf
  = if ndebug || negb (too_large val) then Ok (options_buf ++ ext_bytes val)
    else Abort.
Proof.
  intros Hval. unfold is_u32 in Hval.
  unfold Revision.encode_val, ext_bytes, too_large.
  destruct (get_nibble_cases val ltac:(lia)) as [[H1 ->]|[[H1 ->]|[H1 ->]]].
  - rewrite (proj2 (Z.ltb_lt val 13)) by lia.
    rewrite (proj2 (Z.ltb_ge 65804 val)) by lia.
    by rewrite orb_true_r, app_nil_r.
  - rewrite (proj2 (Z.ltb_ge val 13)) by lia.
    rewrite (proj2 (Z.ltb_lt val 269)) by lia.
    rewrite (proj2 (Z.ltb_ge 65804 val)) by lia.
    by rewrite orb_true_r.
  - rewrite (proj2 (Z.ltb_ge val 13)), (proj2 (Z.ltb_ge val 269)) by lia.
    simpl. rewrite u32_small by (unfold is_u32; lia).
    destruct ndebug; simpl; [by rewrite <- app_assoc|].
    destruct (Z.ltb_spec 65535 (val - 269)), (Z.ltb_spec 65804 val);
      try (exfalso; lia); simpl; [done|].
    by rewrite <- app_assoc.
Qed.

Lemma revision_encode_options ndebug options : ∀ prev options_buf,
  Revision.encode_options ndebug options prev options_buf
  = if ndebug || options_fit prev options
    then Ok (options_buf ++ options_bytes prev options)
    else Abort.
Proof.
  induction options as [|o options IH]; intros prev options_buf.
  { simpl. by rewrite orb_true_r, app_nil_r. }
  cbn [Revision.encode_options options_fit options_bytes].
  rewrite revision_encode_val by apply u32_range.
  destruct ndebug.
  - cbn [orb mbind outcome_bind bind].
    rewrite revision_encode_val by apply u32_range.
    cbn [orb mbind outcome_bind bind]. rewrite IH. cbn [orb].
    f_equal. unfold entry_bytes. rewrite <- !app_assoc. cbn [app].
    by rewrite <- !app_assoc.
  - cbn [orb].
    destruct (negb (too_large (u32 (number o - prev)))); [|done].
    cbn [andb mbind outcome_bind bind].
    rewrite revision_encode_val by apply u32_range. cbn [orb].
    destruct (negb (too_large (size32 (value o)))); [|done].
    cbn [andb mbind outcome_bind bind]. rewrite IH. cbn [orb].
    destruct (options_fit (number o) options); [|done].
    f_equal. unfold entry_bytes. rewrite <- !app_assoc. cbn [app].
    by rewrite <- !app_assoc.
Qed.

(** What [to_bytes] of the revision returns. *)
Lemma revision_to_bytes_wire ndebug self :
  Revision.to_bytes ndebug self
  = if ndebug || options_fit 0 (_options self) then Ok (wire self) else Abort.
Proof.
  unfold Revision.to_bytes.
  assert (Hbuf :
    match length (_options self) with
    | O => Ok []
    | S _ => Revision.encode_options ndebug (_options self) 0 []
    end
    = if ndebug || options_fit 0 (_options self)
      then Ok (options_bytes 0 (_options self)) else Abort).
  { destruct (_options self) as [|o options].
    - simpl. by rewrite orb_true_r.
    - cbn [length]. by rewrite revision_encode_options. }
  rewrite Hbuf. clear Hbuf.
  destruct (ndebug || options_fit 0 (_options self)); [|done].
  cbn [mbind outcome_bind bind].
  set (k := (length (_token self) + length (options_bytes 0 (_options self))
             + length (payload_bytes (_payload self)))%nat).
  assert (Hsize :
    (match length (_payload self) with
     | O => 4 + length (_token self)
     | S n => 4 + length (_token self) + (1 + S n)
     end + length (options_bytes 0 (_options self)))%nat = (4 + k)%nat).
  { subst k. rewrite length_payload_bytes.
    destruct (length (_payload self)); lia. }
  rewrite Hsize. clear Hsize.
  change (replicate (4 + k) 0) with ([] ++ 0 :: 0 :: 0 :: 0 :: replicate k 0).
  match goal with |- context [store ([] ++ ?a :: ?l) 0 ?v] =>
    change (store ([] ++ a :: l) 0 v)
      with (store ([] ++ a :: l) (length (@nil Z)) v) end.
  rewrite store_middle. cbn [mbind outcome_bind bind].
  match goal with |- context [store ([] ++ ?a :: ?l) 1 ?v] =>
    change (store ([] ++ a :: l) 1 v) with (store ([a] ++ l) (length [a]) v) end.
  rewrite store_middle. cbn [mbind outcome_bind bind].
  match goal with |- context [store ([?a] ++ ?b :: ?l) 2 ?v] =>
    change (store ([a] ++ b :: l) 2 v)
      with (store ([a; b] ++ l) (length [a; b]) v) end.
  rewrite store_middle. cbn [mbind outcome_bind bind].
  match goal with |- context [store ([?a; ?b] ++ ?c :: ?l) 3 ?v] =>
    change (store ([a; b] ++ c :: l) 3 v)
      with (store ([a; b; c] ++ l) (length [a; b; c]) v) end.
  rewrite store_middle. cbn [mbind outcome_bind bind].
  match goal with |- context [copy _ ([?a; ?b; ?c] ++ ?e :: replicate k 0)] =>
    change ([a; b; c] ++ e :: replicate k 0)
      with (header_bytes self ++ replicate k 0) end.
  destruct (copy_at (_token self) (header_bytes self) (replicate k 0) 4)
    as (post1 & Hl1 & ->); [done | rewrite length_replicate; lia |].
  rewrite length_replicate in Hl1. cbn [mbind outcome_bind bind].
  assert (Hopts :
    ∃ post2, length post1
             = (length (options_bytes 0 (_options self)) + length post2)%nat
      ∧ match length (options_bytes 0 (_options self)) with
        | O => Ok ((header_bytes self ++ (u8 <$> _token self)) ++ post1,
                   (4 + length (_token self))%nat)
        | S n =>
          bytes ← copy (options_bytes 0 (_options self))
                    ((header_bytes self ++ (u8 <$> _token self)) ++ post1)
                    (4 + length (_token self));
          Ok (bytes, (4 + length (_token self) + S n)%nat)
        end
        = Ok (((header_bytes self ++ (u8 <$> _token self))
               ++ options_bytes 0 (_options self)) ++ post2,
              (4 + length (_token self)
               + length (options_bytes 0 (_options self)))%nat)).
  { destruct (copy_at (options_bytes 0 (_options self))
                (header_bytes self ++ (u8 <$> _token self)) post1
                (4 + length (_token self))) as (post2 & Hl2 & Hcopy).
    { rewrite length_app, length_fmap. done. }
    { subst k. lia. }
    exists post2. split; [done|].
    rewrite (fmap_u8_wf _ (options_bytes_wf _ _)) in Hcopy.
    destruct (length (options_bytes 0 (_options self))) as [|n] eqn:En.
    - rewrite (nil_length_inv _ En) in Hcopy |- *.
      cbn [copy] in Hcopy.
      assert (Heq : ∀ a b : list Z, @Ok (list Z) a = Ok b → a = b)
        by (by intros a b [= ->]).
      apply Heq in Hcopy. rewrite <- Hcopy. by rewrite Nat.add_0_r.
    - rewrite Hcopy. reflexivity. }
  destruct Hopts as (post2 & Hl2 & ->). cbn [mbind outcome_bind bind].
  assert (Hl3 : length post2 = length (payload_bytes (_payload self))) by lia.
  clear Hl1 Hl2. unfold wire, frame.
  destruct (_payload self) as [|x payload] eqn:Epayload.
  - cbn [length payload_bytes] in *. destruct post2; [|done].
    rewrite !app_nil_r. by rewrite <- app_assoc.
  - cbn [length].
    destruct (store_at
                ((header_bytes self ++ (u8 <$> _token self))
                 ++ options_bytes 0 (_options self)) post2
                (4 + length (_token self)
                 + length (options_bytes 0 (_options self))) 255)
      as (post3 & Hl4 & Hstore).
    { rewrite !length_app, length_fmap. done. }
    { rewrite Hl3. simpl. lia. }
    rewrite Hstore. cbn [mbind outcome_bind bind].
    destruct (copy_at (x :: payload)
                (((header_bytes self ++ (u8 <$> _token self))
                  ++ options_bytes 0 (_options self)) ++ [u8 255]) post3
                (S (4 + length (_token self)
                    + length (options_bytes 0 (_options self)))))
      as (post4 & Hl5 & Hcopy).
    { rewrite !length_app, length_fmap. simpl. lia. }
    { rewrite Hl3 in Hl4. simpl in Hl4. rewrite length_fmap in Hl4.
      simpl. lia. }
    rewrite Hcopy.
    rewrite Hl3 in Hl4. simpl in Hl4, Hl5. rewrite length_fmap in Hl4.
    destruct post4; [|simpl in Hl5; lia].
    f_equal. rewrite app_nil_r. rewrite <- !app_assoc. reflexivity.
Qed.

End Revised.

(** X20. The revision that first collects the option entries in a buffer
    of their own and then moves them into place returns what the earlier
    [to_bytes], which sizes the result in a first loop and writes in a
    second, returns: for every message and in both builds. *)
Theorem X20_revision_to_bytes (ndebug : bool) (self : pdu) :
  Revision.to_bytes ndebug self = to_bytes ndebug self.
Proof. by rewrite revision_to_bytes_wire, to_bytes_wire. Qed.

Section Ordered.

Lemma emplace_perm opt options :
  Multimap.emplace opt options ≡ₚ options ++ [opt].
Proof.
  induction options as [|o options IH]; simpl; [done|].
  destruct (number opt <? number o).
  - change (o :: options ++ [opt]) with ((o :: options) ++ [opt]).
    by rewrite Permutation_app_comm.
  - by rewrite IH.
Qed.

Lemma call_options m self :
  match m with
  | AddOption opt => True
  | _ => _options (snd (call m self)) = _options self
  end.
Proof.
  destruct m as [type|code|mid|token|opt|payload]; try done; simpl.
  - unfold set_type. by case_bool_decide.
  - unfold set_token. by case_bool_decide.
Qed.

Lemma multimap_build_perm calls : ∀ self,
  _options (Multimap.build_multimap calls self)
  ≡ₚ _options self ++ added_options calls.
Proof.
  induction calls as [|m calls IH]; intros self; cbn [Multimap.build_multimap].
  { by rewrite app_nil_r. }
  rewrite IH. pose proof (call_options m self) as Hm.
  destruct m as [type|code|mid|token|opt|payload];
    cbn [Multimap.call_multimap added_options omap] in *;
    try (by rewrite Hm).
  change (_options (snd (Multimap.add_option opt self)))
    with (Multimap.emplace opt (_options self)).
  rewrite emplace_perm, <- app_assoc. reflexivity.
Qed.

Lemma multimap_build_ascending calls : ∀ self,
  ascending (_options self ++ added_options calls) →
  Multimap.build_multimap calls self = build calls self.
Proof.
  induction calls as [|m calls IH]; intros self Hsorted; [done|].
  cbn [Multimap.build_multimap build].
  pose proof (call_options m self) as Hm.
  destruct m as [type|code|mid|token|opt|payload];
    cbn [Multimap.call_multimap added_options omap] in *;
    try (apply IH; by rewrite Hm).
  assert (Hsame : Multimap.add_option opt self = add_option opt self).
  { unfold Multimap.add_option, add_option. do 2 f_equal.
    apply emplace_stable. apply Forall_forall. intros o Ho.
    apply (StronglySorted_app_1_elem_of _ _ _ _ _ Hsorted Ho).
    apply elem_of_cons. by left. }
  cbn [call]. rewrite Hsame. apply IH.
  cbn [add_option snd _options]. by rewrite <- app_assoc.
Qed.

(** The loop of the revision does what the loop of the earlier [from]
    does, as long as the numbers do not wrap. *)
Lemma revision_parse_options fuel : ∀ bytes it num acc,
  wf_bytes bytes → 0 <= num → Forall (λ o, number o <= num) acc →
  num + 21935 * Z.of_nat (length bytes - it) < 4294967296 →
  Revision.parse_options fuel bytes it num acc
  = parse_options fuel bytes it num acc.
Proof.
  induction fuel as [|fuel IH]; intros bytes it num acc Hwf Hnum Hacc Hbound;
    cbn [Revision.parse_options parse_options].
  { reflexivity. }
  destruct (bytes !! it) as [d|] eqn:Hd; [|done].
  destruct (d =? 255); [done|].
  pose proof (Forall_lookup_1 _ _ _ _ Hwf Hd) as Hrange.
  destruct (descriptor_split d Hrange) as (_ & Hhi & Hlo & _).
  destruct (parse_value bytes (Z.shiftr d 4) it) as [[delta it1]| | | |]
    eqn:Hdelta; try done.
  cbn [mbind outcome_bind bind].
  destruct (parse_value bytes (Z.land d 15) it1) as [[len it2]| | | |]
    eqn:Hlen; try done.
  cbn [mbind outcome_bind bind].
  case_bool_decide as Hend; [done|].
  destruct (parse_value_inv _ _ _ _ _ Hwf Hhi Hdelta)
    as (Hdr & _ & Hadv1 & _ & Hext).
  pose proof (parse_value_advances _ _ _ _ _ Hlen) as Hadv2.
  pose proof (ext_bound delta Hdr) as Hb.
  assert (Hextlen : (length (ext_bytes delta) ≤ it1 - it)%nat).
  { rewrite <- Hext. unfold range. rewrite length_take. lia. }
  rewrite u32_small by (unfold is_u32; lia).
  rewrite emplace_stable.
  2:{ eapply Forall_impl; [exact Hacc|]. intros o Ho. simpl in *. lia. }
  apply IH; [done | lia | | lia].
  apply Forall_app_2.
  - eapply Forall_impl; [exact Hacc|]. intros o Ho. simpl in *. lia.
  - apply Forall_cons_2; [simpl; lia | constructor].
Qed.

End Ordered.

(** X21. In the revision with a [std::multimap], whatever the order of the
    calls, the object holds the options that were added, each once, in
    ascending order of number; when the calls come in ascending order it
    is the object the earlier revision builds. *)
Theorem X21_multimap_add_option (calls : list mutator) (self : pdu) :
  ascending (options self) →
  ascending (options (Multimap.build_multimap calls self))
  ∧ options (Multimap.build_multimap calls self)
    ≡ₚ options self ++ added_options calls
  ∧ (ascending (options self ++ added_options calls) →
     Multimap.build_multimap calls self = build calls self).
Proof.
  unfold options. intros Hsorted. split_and!.
  - by apply multimap_build_sorted.
  - apply multimap_build_perm.
  - apply multimap_build_ascending.
Qed.

Lemma X21_multimap_add_option_witness :
  ascending (options (Multimap.build_multimap any_order_calls default_pdu))
  ∧ options (Multimap.build_multimap any_order_calls default_pdu)
    ≡ₚ options default_pdu ++ added_options any_order_calls
  ∧ (ascending (options default_pdu ++ added_options any_order_calls) →
     Multimap.build_multimap any_order_calls default_pdu
     = build any_order_calls default_pdu).
Proof.
  apply (X21_multimap_add_option any_order_calls default_pdu). constructor.
Defined.

(** X22. On a buffer of at most 65535 bytes [from] of the revision, which
    inserts each option into the multimap, returns what the earlier
    [from], which appends it, returns. *)
Theorem X22_revision_from (bytes : list Z) :
  wf_bytes bytes → Z.of_nat (length bytes) <= 65535 →
  Revision.from bytes = from bytes.
Proof.
  intros Hwf Hlen. unfold Revision.from, from.
  destruct (parse_header bytes) as [h| | | |]; try done.
  cbn [mbind outcome_bind bind].
  case_bool_decide; [done|]. case_bool_decide; [done|].
  rewrite revision_parse_options; [done | done | lia | constructor | lia].
Qed.

Lemma X22_revision_from_witness : Revision.from test_pdu2 = from test_pdu2.
Proof.
  apply (X22_revision_from test_pdu2).
  - unfold test_pdu2. solve_wf.
  - unfold test_pdu2. simpl. lia.
Defined.

Section RevisedRoundTrip.

Lemma multimap_build_wf calls : ∀ self,
  Forall valid_input calls → wf_pdu self →
  wf_pdu (Multimap.build_multimap calls self).
Proof.
  induction calls as [|m calls IH]; intros self Hcalls Hself; [done|].
  apply Forall_cons_1 in Hcalls as [Hm Hcalls].
  cbn [Multimap.build_multimap]. apply IH; [done|].
  destruct m as [type|code|mid|token|opt|payload];
    try (by apply (call_wf _ _ Hm Hself)).
  destruct Hself as [Hver Htype Hcode Hmid Htok Htkl Hopts Hpay].
  constructor;
    cbn [Multimap.call_multimap Multimap.add_option snd _version _type _code
         _message_id _token _options _payload]; try done.
  rewrite emplace_perm. apply Forall_app_2; [done|].
  apply Forall_cons_2; [exact Hm | constructor].
Qed.

(** Where the earlier loop returns the options in ascending order, the
    loop of the revision returns the same. *)
Lemma revision_parse_options_ascending fuel : ∀ bytes it num acc options it',
  wf_bytes bytes → (it ≤ length bytes)%nat →
  parse_options fuel bytes it num acc = Ok (options, it') →
  ascending options →
  Revision.parse_options fuel bytes it num acc = Ok (options, it').
Proof.
  induction fuel as [|fuel IH];
    intros bytes it num acc options it' Hwf Hit Hloop Hsorted;
    cbn [Revision.parse_options parse_options] in *.
  { done. }
  destruct (bytes !! it) as [d|] eqn:Hd; [|done].
  destruct (d =? 255); [done|].
  destruct (parse_value bytes (Z.shiftr d 4) it) as [[delta it1]| | | |]
    eqn:Hdelta; try done.
  cbn [mbind outcome_bind bind] in *.
  destruct (parse_value bytes (Z.land d 15) it1) as [[len it2]| | | |]
    eqn:Hlen; try done.
  cbn [mbind outcome_bind bind] in *.
  case_bool_decide as Hend; [done|].
  destruct (parse_options_inv fuel bytes (S it2 + Z.to_nat len) _ _ _ _ Hwf
              ltac:(lia) Hloop) as (new & Hnew & _).
  rewrite emplace_stable; [apply IH; [done | lia | done | done]|].
  apply Forall_forall. intros o Ho.
  rewrite Hnew, <- app_assoc in Hsorted.
  apply (StronglySorted_app_1_elem_of _ _ _ _ _ Hsorted Ho).
  apply elem_of_app. left. apply elem_of_cons. by left.
Qed.

Lemma revision_from_ascending bytes self :
  wf_bytes bytes → from bytes = Ok self → ascending (_options self) →
  Revision.from bytes = Ok self.
Proof.
  unfold Revision.from, from. intros Hwf Hfrom Hsorted.
  destruct (parse_header bytes) as [h| | | |]; try done.
  cbn [mbind outcome_bind bind] in *.
  case_bool_decide as Htok; [done|]. case_bool_decide as Hend; [done|].
  destruct (parse_options _ _ _ _ _) as [[options it']| | | |] eqn:Hloop;
    try done.
  assert (Hopts : _options self = options).
  { revert Hfrom. cbn [mbind outcome_bind bind].
    case_bool_decide; by intros [= <-]. }
  rewrite Hopts in Hsorted.
  by rewrite (revision_parse_options_ascending (length bytes) bytes
                (4 + Z.to_nat (h_token_length h)) 0 [] options it' Hwf
                ltac:(lia) Hloop Hsorted).
Qed.

End RevisedRoundTrip.

(** X23. The revision with a [std::multimap] encodes and decodes back the
    message built by any sequence of accepted calls, in whatever order the
    options were added, as long as the deltas between the sorted numbers
    and the value lengths are at most 65804. *)
Theorem X23_multimap_roundtrip (ndebug : bool) (calls : list mutator) :
  Forall valid_input calls →
  representable 0 (options (Multimap.build_multimap calls default_pdu)) →
  ∃ bytes,
    Revision.to_bytes ndebug (Multimap.build_multimap calls default_pdu)
    = Ok bytes
    ∧ Revision.from bytes = Ok (Multimap.build_multimap calls default_pdu).
Proof.
  unfold options. intros Hcalls Hrep.
  set (self := Multimap.build_multimap calls default_pdu) in *.
  assert (Hself : wf_pdu self)
    by (by apply multimap_build_wf; [|apply default_pdu_wf]).
  destruct (from_to_bytes ndebug self Hself Hrep) as [Hto Hback].
  exists (wire self). split.
  - rewrite revision_to_bytes_wire. by rewrite to_bytes_wire in Hto.
  - apply revision_from_ascending; [apply wire_wf | done |].
    apply multimap_build_sorted. constructor.
Qed.

Lemma X23_multimap_roundtrip_witness :
  ∃ bytes,
    Revision.to_bytes false (Multimap.build_multimap any_order_calls default_pdu)
    = Ok bytes
    ∧ Revision.from bytes
      = Ok (Multimap.build_multimap any_order_calls default_pdu).
Proof.
  apply (X23_multimap_roundtrip false any_order_calls).
  - unfold any_order_calls.
    repeat (apply Forall_cons_2; [simpl; solve_wf|]). constructor.
  - solve_representable.
Defined.
